(** * Conway's Game of Life on a torus: the grid logic of [src/App.tsx]

    The component keeps a [boolean[][]] grid, its dimensions and a running
    flag in React state.  This file embeds the grid functions
    ([createEmptyGrid], [createRandomGrid], [isGridEmpty], [countNeighbors],
    [nextGeneration], [setCellAlive]) and the two lifecycle handlers
    ([start], [clear]) and proves the properties the specification states
    about them.

    JavaScript numbers used as indices and counters are integers here ([Z]);
    an array is a [list]; an indexed read [a[i]] that misses the array yields
    [undefined] ([None]); a property access on [undefined] throws a
    [TypeError].  Every indexed read is recorded in a log so that statements
    about which indices the code touches are statements about the code. *)

From Stdlib Require Import ZArith QArith Qround Lia.
From stdpp Require Import base list.

Local Open Scope Z_scope.

(** ** Values and effects *)

(** A grid is an array of rows, a row an array of booleans. *)
Abbreviation Grid := (list (list bool)).

(** One indexed read [a[i]]: the length of [a] and the index used.  The
    index is [None] when it is [NaN] (the result of [x % 0]). *)
Record access : Type := Access { acc_len : nat; acc_idx : option Z }.

(** The read hits an element of the array. *)
Definition in_bounds (a : access) : Prop :=
  match acc_idx a with
  | Some z => 0 <= z < Z.of_nat (acc_len a)
  | None => False
  end.

(** How a call ends: with a value, or by throwing a [TypeError]. *)
Inductive outcome (A : Type) : Type :=
  | Ok (a : A)
  | TypeError.
Arguments Ok {A} a.
Arguments TypeError {A}.

(** A computation: the reads it performed, in order, and how it ended. *)
Definition M (A : Type) : Type := (list access * outcome A)%type.

Definition reads {A} (m : M A) : list access := fst m.
Definition result {A} (m : M A) : outcome A := snd m.

Definition throw {A} : M A := ([], TypeError).

#[global] Instance M_ret : MRet M := λ A a, ([], Ok a).
#[global] Instance M_bind : MBind M := λ A B f m,
  match m with
  | (l, Ok a) => let '(l', r) := f a in (l ++ l', r)
  | (l, TypeError) => (l, TypeError)
  end.

(** [a[i]] as a value: the element, or [undefined]. *)
Definition js_index {A} (arr : list A) (i : option Z) : option A :=
  match i with
  | Some z => if z <? 0 then None else arr !! Z.to_nat z
  | None => None
  end.

(** [a[i]] as a computation: the read is logged. *)
Definition read {A} (arr : list A) (i : option Z) : M (option A) :=
  ([Access (length arr) i], Ok (js_index arr i)).

(** Using a value as an object ([v.length], [v[j]]): throws on [undefined]. *)
Definition defined {A} (v : option A) : M A :=
  match v with
  | Some a => mret a
  | None => throw
  end.

(** [if (v)] on a [boolean | undefined]. *)
Definition truthy (v : option bool) : bool :=
  match v with
  | Some b => b
  | None => false
  end.

(** [a % b] on integers: the sign follows the dividend; [NaN] for [b = 0]. *)
Definition js_rem (a b : Z) : option Z :=
  if b =? 0 then None else Some (Z.rem a b).

(** [for (let x = -1; x <= 1; x++) body], threading the loop-carried value. *)
Fixpoint forM {A S} (xs : list A) (s : S) (body : A → S → M S) : M S :=
  match xs with
  | [] => mret s
  | x :: xs' => s' ← body x s; forM xs' s' body
  end.

(** [arr.map((x, k) => f(k, x))], the callback running from index [k0]. *)
Fixpoint mapiM_from {A B} (f : Z → A → M B) (k0 : Z) (arr : list A)
  : M (list B) :=
  match arr with
  | [] => mret []
  | x :: arr' => y ← f k0 x; ys ← mapiM_from f (k0 + 1) arr'; mret (y :: ys)
  end.

Definition mapiM {A B} (f : Z → A → M B) (arr : list A) : M (list B) :=
  mapiM_from f 0 arr.

(** ** Grid allocation *)

(** [Array.from({ length: rows }, () => Array.from({ length: cols }, () => false))] *)
Definition createEmptyGrid (rows cols : nat) : Grid :=
  replicate rows (replicate cols false).

Definition INITIAL_DENSITY : Q := (1 # 4)%Q.

(** [Math.random() < INITIAL_DENSITY] on one draw. *)
Definition seeded (draw : Q) : bool :=
  match Qlt_le_dec draw INITIAL_DENSITY with
  | left _ => true
  | right _ => false
  end.

(** The random source is the sequence of values [Math.random()] returns; the
    cursor counts the draws made so far.  A row of [cols] cells takes [cols]
    draws. *)
Fixpoint randomRow (rnd : nat → Q) (cursor cols : nat) : list bool * nat :=
  match cols with
  | O => ([], cursor)
  | S cols' =>
      let cell := seeded (rnd cursor) in
      let '(rest, cursor') := randomRow rnd (S cursor) cols' in
      (cell :: rest, cursor')
  end.

Fixpoint randomRows (rnd : nat → Q) (cursor rows cols : nat)
  : list (list bool) * nat :=
  match rows with
  | O => ([], cursor)
  | S rows' =>
      let '(r, cursor') := randomRow rnd cursor cols in
      let '(rest, cursor'') := randomRows rnd cursor' rows' cols in
      (r :: rest, cursor'')
  end.

Definition createRandomGrid (rnd : nat → Q) (rows cols : nat) : Grid :=
  fst (randomRows rnd 0 rows cols).

(** [grid.every((row) => row.every((cell) => !cell))] *)
Definition isGridEmpty (grid : Grid) : bool :=
  forallb (λ row, forallb (λ cell : bool, negb cell) row) grid.

(** ** Neighbour counting and the generation step *)

Definition countNeighbors (grid : Grid) (row col : Z) : M Z :=
  first ← read grid (Some 0) ≫= defined;
  let rows := Z.of_nat (length grid) in
  let cols := Z.of_nat (length (first : list bool)) in
  forM [-1; 0; 1] 0 (λ i count,
    forM [-1; 0; 1] count (λ j count,
      if (i =? 0) && (j =? 0) then mret count
      else
        let newRow := js_rem (row + i + rows) rows in
        let newCol := js_rem (col + j + cols) cols in
        r ← read grid newRow ≫= defined;
        c ← read (r : list bool) newCol;
        mret (if truthy c then count + 1 else count))).

Definition nextGeneration (currentGrid : Grid) : M Grid :=
  mapiM (λ i row,
    mapiM (λ j cell,
      neighbors ← countNeighbors currentGrid i j;
      if (cell : bool) then mret ((neighbors =? 2) || (neighbors =? 3))
      else mret (neighbors =? 3)) row) currentGrid.


(** ** Painting *)

(** What the updater passed to [setGrid] returns.
    - [Same]: [return currentGrid], the very array it was given, nothing
      allocated;
    - [Copy newGrid]: a freshly allocated grid, the cell written inside its
      row;
    - [CopyExtended newGrid row col]: [col] misses the row, so the write adds
      the property [col] to the copied row [row] (growing it with holes when
      [col] is past its end); the result is [newGrid] plus that one property
      and no longer a dense [boolean[][]]. *)
Inductive painted : Type :=
  | Same
  | Copy (newGrid : list (list bool))
  | CopyExtended (newGrid : list (list bool)) (row col : Z).

(** [newGrid[row][col] = true], on the copy. *)
Definition store (newGrid : Grid) (row col : Z) : M painted :=
  r ← read newGrid (Some row) ≫= defined;
  if (0 <=? col) && (col <? Z.of_nat (length (r : list bool))) then
    mret (Copy (<[Z.to_nat row := <[Z.to_nat col := true]> r]> newGrid))
  else mret (CopyExtended newGrid row col).

(** The updater of [setCellAlive]; [currentGrid.map((r) => [...r])] copies
    every row. *)
Definition setCellAlive (currentGrid : Grid) (row col : Z) : M painted :=
  r ← read currentGrid (Some row) ≫= defined;
  c ← read (r : list bool) (Some col);
  if truthy c then mret Same
  else
    let newGrid := (λ r : list bool, r) <$> currentGrid in
    store newGrid row col.

(** The grid held in state after [setGrid(updater)], when it is a grid. *)
Definition painted_grid (currentGrid : Grid) (p : painted) : option Grid :=
  match p with
  | Same => Some currentGrid
  | Copy newGrid => Some newGrid
  | CopyExtended _ _ _ => None
  end.

(** ** Component state and lifecycle handlers *)

(** [Math.ceil(window.innerWidth / CELL_SIZE)] of a viewport size: a natural
    number. *)
Record Dimensions : Type := { cols : nat; rows : nat }.

Record App : Type := {
  dimensions : Dimensions;
  grid : list (list bool);
  running : bool;
  isPainting : bool;
}.

(** [start]: [rnd] is what [Math.random()] returns from this point on. *)
Definition start (rnd : nat → Q) (st : App) : App :=
  let grid' :=
    if isGridEmpty (grid st) then
      createRandomGrid rnd (rows (dimensions st)) (cols (dimensions st))
    else grid st in
  {| dimensions := dimensions st; grid := grid';
     running := true; isPainting := isPainting st |}.

Definition clear (st : App) : App :=
  {| dimensions := dimensions st;
     grid := createEmptyGrid (rows (dimensions st)) (cols (dimensions st));
     running := false; isPainting := isPainting st |}.

(** ** Vocabulary of the specification *)

(** [g[i][j]], as a value. *)
Definition cell (g : Grid) (i j : Z) : option bool :=
  r ← js_index g (Some i); js_index r (Some j).

(** All rows have equal length [cols]; there are [rows] of them. *)
Definition rectangular (g : Grid) (rows cols : nat) : Prop :=
  length g = rows ∧ Forall (λ r, length r = cols) g.

(** The offsets [(-1,0,1) × (-1,0,1)] excluding [(0,0)]. *)
Definition offsets : list (Z * Z) :=
  List.filter (λ d, negb ((d.1 =? 0) && (d.2 =? 0)))
    (list_prod [-1; 0; 1] [-1; 0; 1]).

(** The number of live cells among the 8 neighbour positions, each coordinate
    wrapped modulo the dimensions. *)
Definition toroidalNeighbors (rows cols : nat) (g : Grid) (row col : Z) : Z :=
  Z.of_nat (length (List.filter
    (λ d, truthy (cell g ((row + d.1) `mod` Z.of_nat rows)
                         ((col + d.2) `mod` Z.of_nat cols)))
    offsets)).

(** ** Vocabulary of the proofs *)

(** The body of the inner loop of [countNeighbors], for one offset. *)
Definition visit (grid : Grid) (row col rows cols i j count : Z) : M Z :=
  if (i =? 0) && (j =? 0) then mret count
  else
    let newRow := js_rem (row + i + rows) rows in
    let newCol := js_rem (col + j + cols) cols in
    r ← read grid newRow ≫= defined;
    c ← read (r : list bool) newCol;
    mret (if truthy c then count + 1 else count).

(** The reads one call of [countNeighbors] makes on a [rows × cols] grid, in
    order: [grid[0]] for the column count, then a row and a cell for each
    offset, at the wrapped indices. *)
Definition neighborReads (rows cols : nat) (row col : Z) : list access :=
  Access rows (Some 0) ::
  flat_map (λ d, [Access rows (Some ((row + d.1) `mod` Z.of_nat rows));
                  Access cols (Some ((col + d.2) `mod` Z.of_nat cols))])
           offsets.

(** Conway's rule as the inner callback of [nextGeneration] applies it. *)
Definition rule (cell : bool) (neighbors : Z) : bool :=
  if cell then (neighbors =? 2) || (neighbors =? 3) else neighbors =? 3.

(** The grid in state after one paint of [(row, col)]. *)
Definition paint (g : Grid) (row col : Z) : option Grid :=
  match result (setCellAlive g row col) with
  | Ok p => painted_grid g p
  | TypeError => None
  end.

(** Painting the same cell [n] times in a row. *)
Fixpoint paintTimes (n : nat) (g : Grid) (row col : Z) : option Grid :=
  match n with
  | O => Some g
  | S n' => g' ← paint g row col; paintTimes n' g' row col
  end.

(** Consecutive reads, two by two. *)
Fixpoint pairs {A} (l : list A) : list (A * A) :=
  match l with
  | a :: b :: l' => (a, b) :: pairs l'
  | _ => []
  end.

(** The cells [grid[newRow][newCol]] one call of [countNeighbors] looks at,
    in order: its reads after the first one ([grid[0]]), a row index and
    a column index at a time. *)
Definition visited (grid : Grid) (row col : Z) : list (option Z * option Z) :=
  pairs (acc_idx <$> tail (reads (countNeighbors grid row col))).

(** ** The rest of the component: mount, resize, controls, pointer events *)

Definition CELL_SIZE : Z := 20.

(** [Math.ceil(size / CELL_SIZE)] for a viewport size in pixels, a
    non-negative integer.  The quotient is taken exactly: a quotient by 20
    that is not an integer is at least 1/20 away from the next one, far more
    than the rounding of the division, so the ceiling is that of the exact
    quotient. *)
Definition cellCount (size : nat) : nat :=
  Z.to_nat (Qceiling (inject_Z (Z.of_nat size) / inject_Z CELL_SIZE)).

(** The state after the first render, for a viewport
    [innerWidth × innerHeight]. *)
Definition mount (innerWidth innerHeight : nat) : App :=
  {| dimensions := {| cols := cellCount innerWidth;
                      rows := cellCount innerHeight |};
     grid := createEmptyGrid (cellCount innerHeight) (cellCount innerWidth);
     running := false; isPainting := false |}.

Definition handleResize (innerWidth innerHeight : nat) (st : App) : App :=
  let newCols := cellCount innerWidth in
  let newRows := cellCount innerHeight in
  {| dimensions := {| cols := newCols; rows := newRows |};
     grid := createEmptyGrid newRows newCols;
     running := false; isPainting := isPainting st |}.

Definition setGrid (st : App) (g : Grid) : App :=
  {| dimensions := dimensions st; grid := g;
     running := running st; isPainting := isPainting st |}.

Definition setRunning (st : App) (b : bool) : App :=
  {| dimensions := dimensions st; grid := grid st;
     running := b; isPainting := isPainting st |}.

Definition setIsPainting (st : App) (b : bool) : App :=
  {| dimensions := dimensions st; grid := grid st;
     running := running st; isPainting := b |}.

(** [setGrid(updater)] with the updater of [nextGeneration]; [None] when
    the updater throws. *)
Definition step (st : App) : option App :=
  match result (nextGeneration (grid st)) with
  | Ok g => Some (setGrid st g)
  | TypeError => None
  end.

(** [setGrid(updater)] with the updater of [setCellAlive]; [None] when the
    updater throws or leaves an array that is no dense grid. *)
Definition paintCell (st : App) (row col : Z) : option App :=
  g ← paint (grid st) row col; Some (setGrid st g).

(** What the browser delivers to the component.
    - [StartPauseClick rnd]: the first button, [running ? pause : start];
      [rnd] is what [Math.random()] returns from then on;
    - [StepClick]: the second button, [disabled] while running;
    - [ClearClick]: the third button;
    - [Tick]: the interval callback, which exists only while running;
    - [Resize w h]: the window's resize event, with the new viewport size;
    - [CellMouseDown i j]: mouse down on cell [(i,j)], handled by the cell
      and then, bubbling, by the grid container;
    - [CellMouseEnter i j]: the pointer enters cell [(i,j)];
    - [GridMouseUp], [GridMouseLeave]: on the grid container. *)
Inductive event : Type :=
  | StartPauseClick (rnd : nat → Q)
  | StepClick
  | ClearClick
  | Tick
  | Resize (innerWidth innerHeight : nat)
  | CellMouseDown (i j : Z)
  | CellMouseEnter (i j : Z)
  | GridMouseUp
  | GridMouseLeave.

Definition handle (e : event) (st : App) : option App :=
  match e with
  | StartPauseClick rnd =>
      if running st then Some (setRunning st false) else Some (start rnd st)
  | StepClick => if running st then Some st else step st
  | ClearClick => Some (clear st)
  | Tick => if running st then step st else Some st
  | Resize w h => Some (handleResize w h st)
  | CellMouseDown i j =>
      st' ← paintCell st i j; Some (setIsPainting st' true)
  | CellMouseEnter i j => if isPainting st then paintCell st i j else Some st
  | GridMouseUp => Some (setIsPainting st false)
  | GridMouseLeave => Some (setIsPainting st false)
  end.

(** The events of a session, handled in order of arrival. *)
Fixpoint run (es : list event) (st : App) : option App :=
  match es with
  | [] => Some st
  | e :: es' => st' ← handle e st; run es' st'
  end.

(** The grid in state has the dimensions in state. *)
Definition consistent (st : App) : Prop :=
  rectangular (grid st) (rows (dimensions st)) (cols (dimensions st)).

(** A pointer event names a cell that is on the grid being shown. *)
Definition on_grid (st : App) (e : event) : Prop :=
  match e with
  | CellMouseDown i j | CellMouseEnter i j =>
      0 <= i < Z.of_nat (rows (dimensions st))
      ∧ 0 <= j < Z.of_nat (cols (dimensions st))
  | _ => True
  end.

(** Every pointer event of the session names a cell of the grid shown when
    it arrives. *)
Fixpoint session (es : list event) (st : App) : Prop :=
  match es with
  | [] => True
  | e :: es' =>
      on_grid st e ∧ ∀ st', handle e st = Some st' → session es' st'
  end.

Definition pointer_event (e : event) : bool :=
  match e with
  | CellMouseDown _ _ | CellMouseEnter _ _ | GridMouseUp | GridMouseLeave => true
  | _ => false
  end.

(** ** Reasoning about computations *)

Lemma bind_Ok {A B} (m : M A) (f : A → M B) l a :
  m = (l, Ok a) → m ≫= f = (l ++ reads (f a), result (f a)).
Proof. intros ->. unfold mbind, M_bind, reads, result. by destruct (f a). Qed.

Lemma bind_runs {A B} (m : M A) (f : A → M B) l a l' r :
  m = (l, Ok a) → f a = (l', r) → m ≫= f = (l ++ l', r).
Proof. intros -> Hf. unfold mbind, M_bind. by rewrite Hf. Qed.

Lemma js_index_lookup {A} (arr : list A) (z : Z) :
  0 <= z → js_index arr (Some z) = arr !! Z.to_nat z.
Proof. intros Hz. unfold js_index. by rewrite (proj2 (Z.ltb_ge z 0) Hz). Qed.

Lemma js_index_is_Some {A} (arr : list A) (z : Z) x :
  js_index arr (Some z) = Some x → 0 <= z < Z.of_nat (length arr).
Proof.
  unfold js_index. destruct (Z.ltb_spec z 0) as [|Hz]; [done |].
  intros H%lookup_lt_Some. lia.
Qed.

Lemma js_index_in_range {A} (arr : list A) (z : Z) :
  0 <= z < Z.of_nat (length arr) → is_Some (js_index arr (Some z)).
Proof.
  intros Hz. rewrite js_index_lookup by lia. apply lookup_lt_is_Some. lia.
Qed.

Lemma read_defined {A} (arr : list A) (z : Z) x :
  js_index arr (Some z) = Some x →
  read arr (Some z) ≫= defined = ([Access (length arr) (Some z)], Ok x).
Proof.
  intros Hx. unfold read. rewrite (bind_Ok _ _ _ _ eq_refl). by rewrite Hx.
Qed.

(** *** [map] with index *)

Section mapiM.
Context {A B : Type} (f : Z → A → M B).
Context (P : access → Prop) (Q : Z → A → B → Prop).

Lemma mapiM_from_spec (arr : list A) (k0 : Z) :
  (∀ (k : nat) x, arr !! k = Some x →
     ∃ y, result (f (k0 + Z.of_nat k) x) = Ok y
          ∧ Forall P (reads (f (k0 + Z.of_nat k) x)) ∧ Q (k0 + Z.of_nat k) x y) →
  ∃ ys, result (mapiM_from f k0 arr) = Ok ys
        ∧ Forall P (reads (mapiM_from f k0 arr))
        ∧ length ys = length arr
        ∧ ∀ (k : nat) x, arr !! k = Some x →
            ∃ y, ys !! k = Some y ∧ Q (k0 + Z.of_nat k) x y.
Proof.
  revert k0. induction arr as [|x arr IH]; intros k0 Hf.
  - exists []. repeat split; [constructor | done].
  - destruct (Hf 0%nat x eq_refl) as (y & Hy & HP & HQ).
    rewrite Z.add_0_r in Hy, HP, HQ.
    destruct (IH (k0 + 1)) as (ys & Hys & HPs & Hlen & Hk).
    { intros k x' Hx'. specialize (Hf (S k) x' Hx').
      by replace (k0 + 1 + Z.of_nat k) with (k0 + Z.of_nat (S k)) by lia. }
    exists (y :: ys). cbn [mapiM_from].
    destruct (f k0 x) as [l o] eqn:Hfx. cbn in Hy, HP. subst o.
    rewrite (bind_Ok _ _ l y eq_refl).
    destruct (mapiM_from f (k0 + 1) arr) as [l' o'] eqn:Hrest.
    cbn in Hys, HPs. subst o'.
    rewrite (bind_Ok _ _ l' ys eq_refl). cbn.
    repeat split.
    + rewrite app_nil_r. by apply Forall_app.
    + by rewrite Hlen.
    + intros [|k] x' Hx'.
      * cbn in Hx'. inversion Hx'; subst x'. exists y.
        by rewrite Z.add_0_r.
      * cbn in Hx'. destruct (Hk k x' Hx') as (y' & Hy' & HQ').
        exists y'. split; [done |].
        by replace (k0 + Z.of_nat (S k)) with (k0 + 1 + Z.of_nat k) by lia.
Qed.
End mapiM.

(** ** Neighbour counting on a rectangular grid *)

Lemma countNeighbors_unfold (grid : Grid) (row col : Z) :
  countNeighbors grid row col =
  first ← read grid (Some 0) ≫= defined;
  forM [-1; 0; 1] 0 (λ i count,
    forM [-1; 0; 1] count
      (visit grid row col (Z.of_nat (length grid))
             (Z.of_nat (length (first : list bool))) i)).
Proof. reflexivity. Qed.

(** The wrapped index the code computes is the index modulo the dimension. *)
Lemma js_rem_wrap (x d n : Z) :
  0 <= x < n → -1 <= d <= 1 → js_rem (x + d + n) n = Some ((x + d) `mod` n).
Proof.
  intros Hx Hd. unfold js_rem.
  rewrite (proj2 (Z.eqb_neq n 0)) by lia. f_equal.
  rewrite Z.rem_mod_nonneg by lia.
  replace (x + d + n) with (x + d + 1 * n) by lia.
  by rewrite Z_mod_plus_full.
Qed.

Section Torus.
Variables (G : list (list bool)) (rows cols : nat).
Hypothesis Hrect : rectangular G rows cols.

Lemma rect_row (i : Z) :
  0 <= i < Z.of_nat rows →
  ∃ r, js_index G (Some i) = Some r ∧ length r = cols.
Proof.
  destruct Hrect as [Hlen Hall]. intros Hi.
  destruct (js_index_in_range G i) as [r Hr]; [lia |].
  exists r. split; [done |].
  rewrite js_index_lookup in Hr by lia.
  by apply (proj1 (Forall_lookup _ _) Hall _ _ Hr).
Qed.

Lemma rect_cell (i j : Z) :
  0 <= i < Z.of_nat rows → 0 <= j < Z.of_nat cols →
  ∃ r b, js_index G (Some i) = Some r ∧ length r = cols
         ∧ js_index r (Some j) = Some b ∧ cell G i j = Some b.
Proof.
  intros Hi Hj. destruct (rect_row i Hi) as (r & Hr & Hlen).
  destruct (js_index_in_range r j) as [b Hb]; [lia |].
  exists r, b. repeat split; try done.
  unfold cell. rewrite Hr. exact Hb.
Qed.

Lemma cell_in_grid (i j : Z) b :
  cell G i j = Some b → 0 <= i < Z.of_nat rows ∧ 0 <= j < Z.of_nat cols.
Proof.
  unfold cell. destruct (js_index G (Some i)) as [r|] eqn:Hr; [|done].
  cbn. intros Hb.
  pose proof (js_index_is_Some _ _ _ Hr) as Hi.
  pose proof (js_index_is_Some _ _ _ Hb) as Hj.
  destruct Hrect as [Hlen Hall].
  rewrite js_index_lookup in Hr by lia.
  pose proof (proj1 (Forall_lookup _ _) Hall _ _ Hr) as Hc. cbn in Hc. lia.
Qed.

Lemma visit_probe (row col i j count : Z) :
  0 <= row < Z.of_nat rows → 0 <= col < Z.of_nat cols →
  -1 <= i <= 1 → -1 <= j <= 1 → (i =? 0) && (j =? 0) = false →
  visit G row col (Z.of_nat rows) (Z.of_nat cols) i j count =
  ([Access rows (Some ((row + i) `mod` Z.of_nat rows));
    Access cols (Some ((col + j) `mod` Z.of_nat cols))],
   Ok (count + (if truthy (cell G ((row + i) `mod` Z.of_nat rows)
                                 ((col + j) `mod` Z.of_nat cols))
                then 1 else 0))).
Proof.
  intros Hrow Hcol Hi Hj Hij. unfold visit. rewrite Hij.
  rewrite !js_rem_wrap by lia.
  destruct (rect_cell ((row + i) `mod` Z.of_nat rows)
                      ((col + j) `mod` Z.of_nat cols))
    as (r & b & Hr & Hlen & Hb & Hc).
  { apply Z.mod_pos_bound; lia. }
  { apply Z.mod_pos_bound; lia. }
  rewrite (bind_Ok _ _ _ _ (read_defined _ _ _ Hr)).
  unfold read. rewrite (bind_Ok _ _ _ _ eq_refl). cbn [reads result fst snd mret M_ret app].
  rewrite Hb, Hc, Hlen. destruct Hrect as [-> _].
  destruct b; cbn [truthy]; [done | by rewrite Z.add_0_r].
Qed.
End Torus.

(** Counting the live offsets one by one, in the order the loops visit them. *)
Lemma count_offsets (p : Z * Z → bool) :
  Z.of_nat (length (List.filter p offsets)) =
  0 + (if p (-1, -1) then 1 else 0) + (if p (-1, 0) then 1 else 0)
    + (if p (-1, 1) then 1 else 0) + (if p (0, -1) then 1 else 0)
    + (if p (0, 1) then 1 else 0) + (if p (1, -1) then 1 else 0)
    + (if p (1, 0) then 1 else 0) + (if p (1, 1) then 1 else 0).
Proof.
  change offsets with
    [(-1, -1); (-1, 0); (-1, 1); (0, -1); (0, 1); (1, -1); (1, 0); (1, 1)].
  cbn [List.filter].
  destruct (p (-1, -1)), (p (-1, 0)), (p (-1, 1)), (p (0, -1)),
    (p (0, 1)), (p (1, -1)), (p (1, 0)), (p (1, 1)); reflexivity.
Qed.

Ltac run_loops H :=
  lazymatch goal with
  | |- visit _ _ _ _ _ 0 0 _ = _ => reflexivity
  | |- visit _ _ _ _ _ _ _ _ = _ =>
      apply (visit_probe _ _ _ H); first [assumption | lia | reflexivity]
  | |- _ ≫= _ = _ => eapply bind_runs; [run_loops H | cbn beta; run_loops H]
  | |- _ => reflexivity
  end.

Section TorusCount.
Variables (G : list (list bool)) (rows cols : nat).
Hypothesis Hrect : rectangular G rows cols.

Lemma countNeighbors_torus (row col : Z) :
  0 <= row < Z.of_nat rows → 0 <= col < Z.of_nat cols →
  countNeighbors G row col =
  (neighborReads rows cols row col,
   Ok (toroidalNeighbors rows cols G row col)).
Proof.
  intros Hrow Hcol. rewrite countNeighbors_unfold.
  destruct (rect_row G rows cols Hrect 0) as (first & Hfirst & Hlen); [lia |].
  pose proof Hrect as [Hrows _].
  erewrite bind_runs; [| by apply read_defined |].
  2: { rewrite Hlen, Hrows. cbn [forM]. run_loops Hrect. }
  unfold toroidalNeighbors. rewrite count_offsets, Hrows. reflexivity.
Qed.
End TorusCount.

Lemma offsets_range d : d ∈ offsets → -1 <= d.1 <= 1 ∧ -1 <= d.2 <= 1.
Proof.
  change offsets with
    [(-1, -1); (-1, 0); (-1, 1); (0, -1); (0, 1); (1, -1); (1, 0); (1, 1)].
  rewrite !elem_of_cons, elem_of_nil.
  intros H; repeat destruct H as [-> | H]; try done; cbn; lia.
Qed.

Lemma neighborReads_in_bounds (rows cols : nat) (row col : Z) :
  (0 < rows)%nat → (0 < cols)%nat →
  Forall in_bounds (neighborReads rows cols row col).
Proof.
  intros Hrows Hcols. unfold neighborReads. apply Forall_cons; split.
  - unfold in_bounds; cbn. lia.
  - apply Forall_flat_map, Forall_forall. intros d _.
    repeat (apply Forall_cons; split); [| | constructor];
      unfold in_bounds; cbn; apply Z.mod_pos_bound; lia.
Qed.

Lemma toroidalNeighbors_range (rows cols : nat) (g : Grid) (row col : Z) :
  0 <= toroidalNeighbors rows cols g row col <= 8.
Proof.
  unfold toroidalNeighbors. split; [lia |].
  set (p := λ d : Z * Z, _).
  pose proof (List.filter_length_le p offsets) as H.
  change (length offsets) with 8%nat in H. lia.
Qed.

(** ** The generation step on a rectangular grid *)

Section Step.
Variables (G : list (list bool)) (rows cols : nat).
Hypothesis Hrect : rectangular G rows cols.

Lemma nextGeneration_rect :
  ∃ G', result (nextGeneration G) = Ok G'
        ∧ Forall in_bounds (reads (nextGeneration G))
        ∧ length G' = length G
        ∧ ∀ (i : nat) r, G !! i = Some r →
            ∃ r', G' !! i = Some r' ∧ length r' = length r
                  ∧ ∀ (j : nat) c, r !! j = Some c →
                      r' !! j = Some (rule c (toroidalNeighbors rows cols G
                                                (Z.of_nat i) (Z.of_nat j))).
Proof.
  unfold nextGeneration, mapiM.
  match goal with |- context [mapiM_from ?f 0 G] =>
    destruct (mapiM_from_spec f in_bounds
      (λ i (r r' : list bool), length r' = length r
         ∧ ∀ (j : nat) c, r !! j = Some c →
             r' !! j = Some (rule c (toroidalNeighbors rows cols G i
                                        (Z.of_nat j)))) G 0)
      as (G' & HG' & Hreads & Hlen & Hcells)
  end.
  - intros i r Hr. rewrite Z.add_0_l.
    pose proof Hrect as [Hrows Hall].
    pose proof (proj1 (Forall_lookup _ _) Hall _ _ Hr) as Hc. cbn in Hc.
    pose proof (lookup_lt_Some _ _ _ Hr) as Hi.
    match goal with |- context [mapiM_from ?f 0 r] =>
      destruct (mapiM_from_spec f in_bounds
        (λ j (c c' : bool),
           c' = rule c (toroidalNeighbors rows cols G (Z.of_nat i) j)) r 0)
        as (r' & Hr' & Hreads & Hlen & Hcells)
    end.
    + intros j c Hj. rewrite Z.add_0_l.
      pose proof (lookup_lt_Some _ _ _ Hj) as Hjlt.
      rewrite (countNeighbors_torus G rows cols Hrect) by lia.
      exists (rule c (toroidalNeighbors rows cols G (Z.of_nat i) (Z.of_nat j))).
      erewrite (bind_runs _ _ _ _ [] (Ok (rule c _)));
        [| reflexivity | by destruct c].
      cbn [result reads fst snd]. split; [done |]. split; [| done].
      rewrite app_nil_r. apply neighborReads_in_bounds; lia.
    + exists r'. repeat split; try done.
      intros j c Hj. destruct (Hcells j c Hj) as (c' & Hc' & ->).
      by rewrite Z.add_0_l in Hc'.
  - by exists G'.
Qed.
End Step.

Lemma cell_lookup (g : Grid) (i j : Z) (c : bool) :
  cell g i j = Some c ↔
  0 <= i ∧ 0 <= j ∧ ∃ r, g !! Z.to_nat i = Some r ∧ r !! Z.to_nat j = Some c.
Proof.
  unfold cell, js_index. split.
  - destruct (Z.ltb_spec i 0); [done |].
    destruct (g !! Z.to_nat i) as [r|] eqn:Hr; [| done]. cbn.
    destruct (Z.ltb_spec j 0); [done |]. intros Hc. eauto.
  - intros (Hi & Hj & r & Hr & Hc).
    rewrite (proj2 (Z.ltb_ge i 0) Hi), Hr. cbn.
    by rewrite (proj2 (Z.ltb_ge j 0) Hj).
Qed.

Lemma rule_spec (c : bool) (n : Z) :
  rule c n = true ↔ (c = true ∧ (n = 2 ∨ n = 3)) ∨ (c = false ∧ n = 3).
Proof.
  unfold rule. destruct c.
  - rewrite orb_true_iff, !Z.eqb_eq. intuition congruence.
  - rewrite Z.eqb_eq. intuition congruence.
Qed.

(** C1.  For every (rectangular) grid [G] and every cell [(i,j)] of [G],
    [nextGeneration] returns a grid whose cell [(i,j)] is alive if and only
    if [G[i][j]] is alive and its toroidal neighbour count is 2 or 3, or
    [G[i][j]] is dead and the count is 3.  The count is the one
    [countNeighbors] returns on the input grid [G] itself, that is, on the
    prior generation. *)
Theorem nextGeneration_conway (G : list (list bool)) (rows cols : nat)
    (i j : Z) (c : bool) :
  rectangular G rows cols →
  cell G i j = Some c →
  ∃ G' n c',
    result (nextGeneration G) = Ok G'
    ∧ result (countNeighbors G i j) = Ok n
    ∧ n = toroidalNeighbors rows cols G i j
    ∧ cell G' i j = Some c'
    ∧ (c' = true ↔ (c = true ∧ (n = 2 ∨ n = 3)) ∨ (c = false ∧ n = 3)).
Proof.
  intros Hrect Hc.
  destruct (nextGeneration_rect G rows cols Hrect) as (G' & HG' & _ & _ & Hrows).
  pose proof (cell_in_grid G rows cols Hrect i j c Hc) as [Hi Hj].
  apply cell_lookup in Hc as (_ & _ & r & Hr & Hc).
  destruct (Hrows _ _ Hr) as (r' & Hr' & _ & Hcells).
  specialize (Hcells _ _ Hc). rewrite !Z2Nat.id in Hcells by lia.
  exists G', (toroidalNeighbors rows cols G i j),
    (rule c (toroidalNeighbors rows cols G i j)).
  split; [done |]. split.
  { by rewrite (countNeighbors_torus G rows cols Hrect) by lia. }
  split; [done |]. split.
  - apply cell_lookup. repeat split; [lia | lia |]. eauto.
  - apply rule_spec.
Qed.

Lemma nextGeneration_conway_witness :
  ∃ G' n c',
    result (nextGeneration [[false; true; false]; [false; true; false];
                            [false; true; false]]) = Ok G'
    ∧ result (countNeighbors [[false; true; false]; [false; true; false];
                              [false; true; false]] 1 0) = Ok n
    ∧ n = toroidalNeighbors 3 3 [[false; true; false]; [false; true; false];
                                 [false; true; false]] 1 0
    ∧ cell G' 1 0 = Some c'
    ∧ (c' = true ↔ (false = true ∧ (n = 2 ∨ n = 3)) ∨ (false = false ∧ n = 3)).
Proof.
  apply (nextGeneration_conway _ 3 3 1 0 false).
  - split; [reflexivity |]. repeat constructor.
  - reflexivity.
Defined.

(** C2.  On a rectangular grid with at least one row and one column, at an
    in-bounds position, [countNeighbors] returns the number of live cells
    among the 8 positions at the offsets [(-1,0,1) × (-1,0,1)] without
    [(0,0)], each coordinate wrapped modulo the dimension; the count lies
    between 0 and 8.  On the 3×3 grid whose only live cell is [(0,0)], the
    count at [(2,2)] is 1. *)
Theorem countNeighbors_toroidal (G : list (list bool)) (rows cols : nat)
    (row col : Z) :
  rectangular G rows cols →
  (1 <= rows)%nat → (1 <= cols)%nat →
  0 <= row < Z.of_nat rows → 0 <= col < Z.of_nat cols →
  result (countNeighbors G row col) = Ok (toroidalNeighbors rows cols G row col)
  ∧ 0 <= toroidalNeighbors rows cols G row col <= 8
  ∧ result (countNeighbors [[true; false; false]; [false; false; false];
                            [false; false; false]] 2 2) = Ok 1.
Proof.
  intros Hrect _ _ Hrow Hcol. split; [| split].
  - by rewrite (countNeighbors_torus G rows cols Hrect) by lia.
  - apply toroidalNeighbors_range.
  - reflexivity.
Qed.

Lemma countNeighbors_toroidal_witness :
  result (countNeighbors [[true; true]; [false; true]] 1 0)
  = Ok (toroidalNeighbors 2 2 [[true; true]; [false; true]] 1 0)
  ∧ 0 <= toroidalNeighbors 2 2 [[true; true]; [false; true]] 1 0 <= 8
  ∧ result (countNeighbors [[true; false; false]; [false; false; false];
                            [false; false; false]] 2 2) = Ok 1.
Proof.
  apply (countNeighbors_toroidal [[true; true]; [false; true]] 2 2 1 0).
  - split; [reflexivity |]. repeat constructor.
  - lia.
  - lia.
  - lia.
  - lia.
Defined.

(** ** Painting inside the grid *)

Lemma setCellAlive_in_grid (G : list (list bool)) (row col : Z) r c :
  js_index G (Some row) = Some r → js_index r (Some col) = Some c →
  result (setCellAlive G row col) =
  Ok (if c then Same
      else Copy (<[Z.to_nat row := <[Z.to_nat col := true]> r]> G)).
Proof.
  intros Hr Hc. unfold setCellAlive.
  rewrite (bind_Ok _ _ _ _ (read_defined _ _ _ Hr)). cbn [result snd].
  unfold read at 1. rewrite (bind_Ok _ _ _ _ eq_refl). cbn [result snd].
  rewrite Hc. destruct c; cbn [truthy]; [done |].
  rewrite list_fmap_id. unfold store.
  rewrite (bind_Ok _ _ _ _ (read_defined _ _ _ Hr)). cbn [result snd].
  pose proof (js_index_is_Some _ _ _ Hc) as Hcol.
  rewrite (proj2 (Z.leb_le 0 col)) by lia.
  by rewrite (proj2 (Z.ltb_lt col _)) by lia.
Qed.

Lemma cell_split (g : Grid) (i j : Z) (c : bool) :
  cell g i j = Some c →
  ∃ r, js_index g (Some i) = Some r ∧ js_index r (Some j) = Some c.
Proof.
  unfold cell. destruct (js_index g (Some i)) as [r|]; [| done]. eauto.
Qed.

Lemma cell_insert (G : list (list bool)) (row col : Z) r c (i j : Z) :
  js_index G (Some row) = Some r → js_index r (Some col) = Some c →
  cell (<[Z.to_nat row := <[Z.to_nat col := true]> r]> G) i j =
  if (i =? row) && (j =? col) then Some true else cell G i j.
Proof.
  intros Hr Hc.
  pose proof (js_index_is_Some _ _ _ Hr) as Hrow.
  pose proof (js_index_is_Some _ _ _ Hc) as Hcol.
  rewrite js_index_lookup in Hr by lia.
  unfold cell, js_index.
  destruct (Z.ltb_spec i 0) as [Hi|Hi].
  { rewrite (proj2 (Z.eqb_neq i row)) by lia. done. }
  destruct (Z.eqb_spec i row) as [->|Hne].
  - rewrite list_lookup_insert_eq by lia. rewrite Hr. cbn.
    destruct (Z.ltb_spec j 0) as [Hj|Hj].
    { rewrite (proj2 (Z.eqb_neq j col)) by lia. done. }
    destruct (Z.eqb_spec j col) as [->|Hne].
    + by rewrite list_lookup_insert_eq by lia.
    + by rewrite list_lookup_insert_ne by lia.
  - by rewrite list_lookup_insert_ne by lia.
Qed.

Lemma rectangular_insert (G : list (list bool)) (rows cols : nat)
    (i j : nat) r :
  rectangular G rows cols → G !! i = Some r →
  rectangular (<[i := <[j := true]> r]> G) rows cols.
Proof.
  intros [Hlen Hall] Hr. split.
  - by rewrite length_insert.
  - apply Forall_insert; [done |]. rewrite length_insert.
    by apply (proj1 (Forall_lookup _ _) Hall _ _ Hr).
Qed.

Lemma setCellAlive_reads (G : list (list bool)) (row col : Z) r c :
  js_index G (Some row) = Some r → js_index r (Some col) = Some c →
  Forall in_bounds (reads (setCellAlive G row col)).
Proof.
  intros Hr Hc.
  pose proof (js_index_is_Some _ _ _ Hr) as Hrow.
  pose proof (js_index_is_Some _ _ _ Hc) as Hcol.
  assert (in_bounds (Access (length G) (Some row))) as HR by done.
  assert (in_bounds (Access (length r) (Some col))) as HC by done.
  unfold setCellAlive.
  rewrite (bind_Ok _ _ _ _ (read_defined _ _ _ Hr)). cbn [reads fst].
  unfold read at 1. rewrite (bind_Ok _ _ _ _ eq_refl). cbn [reads fst].
  rewrite Hc. destruct c; cbn [truthy].
  { cbn. by repeat (apply List.Forall_cons; [assumption |]). }
  rewrite list_fmap_id. unfold store.
  rewrite (bind_Ok _ _ _ _ (read_defined _ _ _ Hr)). cbn [reads fst].
  rewrite (proj2 (Z.leb_le 0 col)) by lia.
  rewrite (proj2 (Z.ltb_lt col _)) by lia.
  cbn. by repeat (apply List.Forall_cons; [assumption |]).
Qed.

(** ** Grids without cells *)

Lemma mapiM_from_empty_rows (g : Z → Z → bool → M bool)
    (G : list (list bool)) (k : Z) :
  Forall (λ r, r = []) G →
  mapiM_from (λ i row, mapiM_from (g i) 0 row) k G = ([], Ok G).
Proof.
  intros Hnil. revert k.
  induction Hnil as [|r G' -> _ IH]; intros k; [done |].
  cbn [mapiM_from].
  apply (bind_runs _ _ [] [] [] (Ok ([] :: G'))); [reflexivity |].
  apply (bind_runs _ _ [] G' [] (Ok ([] :: G'))); [apply IH | reflexivity].
Qed.

Lemma nextGeneration_no_cells (G : list (list bool)) :
  Forall (λ r, r = []) G → nextGeneration G = ([], Ok G).
Proof.
  intros Hnil. unfold nextGeneration, mapiM.
  by apply (mapiM_from_empty_rows
    (λ i j cell, neighbors ← countNeighbors G i j;
       if (cell : bool) then mret ((neighbors =? 2) || (neighbors =? 3))
       else mret (neighbors =? 3))).
Qed.

Lemma zero_dimension_rows (G : list (list bool)) (rows cols : nat) :
  rectangular G rows cols → (rows = 0 ∨ cols = 0)%nat →
  Forall (λ r, r = []) G.
Proof.
  intros [Hlen Hall] [-> | ->].
  - apply nil_length_inv in Hlen. by subst G.
  - eapply Forall_impl; [exact Hall |]. intros r. apply nil_length_inv.
Qed.

(** ** Allocation *)

Lemma createEmptyGrid_rectangular (rows cols : nat) :
  rectangular (createEmptyGrid rows cols) rows cols.
Proof.
  unfold createEmptyGrid. split.
  - apply length_replicate.
  - apply Forall_replicate, length_replicate.
Qed.

Lemma createEmptyGrid_dead (rows cols : nat) :
  Forall (Forall (λ b, b = false)) (createEmptyGrid rows cols).
Proof. unfold createEmptyGrid. by apply Forall_replicate, Forall_replicate. Qed.

Lemma randomRow_spec (rnd : nat → Q) (cols cursor : nat) :
  (randomRow rnd cursor cols).2 = (cursor + cols)%nat
  ∧ length (randomRow rnd cursor cols).1 = cols
  ∧ ∀ j, (j < cols)%nat →
      (randomRow rnd cursor cols).1 !! j = Some (seeded (rnd (cursor + j)%nat)).
Proof.
  revert cursor. induction cols as [|cols IH]; intros cursor.
  - cbn. repeat split; [lia | intros j Hj; lia].
  - cbn [randomRow]. destruct (IH (S cursor)) as (Hc & Hl & Hj).
    destruct (randomRow rnd (S cursor) cols) as [rest cursor'].
    cbn [fst snd] in *. repeat split; [lia | cbn; by rewrite Hl |].
    intros [|j] Hlt; cbn.
    + by rewrite Nat.add_0_r.
    + rewrite Hj by lia. do 3 f_equal. lia.
Qed.

Lemma randomRows_spec (rnd : nat → Q) (rows cols cursor : nat) :
  length (randomRows rnd cursor rows cols).1 = rows
  ∧ ∀ i, (i < rows)%nat →
      ∃ r, (randomRows rnd cursor rows cols).1 !! i = Some r
           ∧ length r = cols
           ∧ ∀ j, (j < cols)%nat →
               r !! j = Some (seeded (rnd (cursor + i * cols + j)%nat)).
Proof.
  revert cursor. induction rows as [|rows IH]; intros cursor.
  - cbn. split; [done | intros i Hi; lia].
  - cbn [randomRows].
    destruct (randomRow_spec rnd cols cursor) as (Hc & Hl & Hj).
    destruct (randomRow rnd cursor cols) as [r cursor'].
    cbn [fst snd] in Hc, Hl, Hj. subst cursor'.
    destruct (IH (cursor + cols)%nat) as (Hlen & Hrows).
    destruct (randomRows rnd (cursor + cols) rows cols) as [rest cursor''].
    cbn [fst snd] in *. split; [cbn; by rewrite Hlen |].
    intros [|i] Hlt; cbn.
    + exists r. repeat split; try done.
      intros j Hjlt. rewrite Hj by done. do 3 f_equal. lia.
    + destruct (Hrows i) as (r' & Hr' & Hl' & Hj'); [lia |].
      exists r'. repeat split; try done.
      intros j Hjlt. rewrite Hj' by done. do 3 f_equal. lia.
Qed.

Lemma createRandomGrid_rectangular (rnd : nat → Q) (rows cols : nat) :
  rectangular (createRandomGrid rnd rows cols) rows cols.
Proof.
  unfold createRandomGrid.
  destruct (randomRows_spec rnd rows cols 0) as (Hlen & Hrows).
  split; [done |]. apply Forall_lookup. intros i r Hr.
  destruct (Hrows i) as (r' & Hr' & Hl & _).
  { apply lookup_lt_Some in Hr. lia. }
  congruence.
Qed.

Lemma createRandomGrid_cell (rnd : nat → Q) (rows cols i j : nat) :
  (i < rows)%nat → (j < cols)%nat →
  cell (createRandomGrid rnd rows cols) (Z.of_nat i) (Z.of_nat j)
  = Some (seeded (rnd (i * cols + j)%nat)).
Proof.
  intros Hi Hj. unfold createRandomGrid.
  destruct (randomRows_spec rnd rows cols 0) as (_ & Hrows).
  destruct (Hrows i Hi) as (r & Hr & _ & Hcells).
  apply cell_lookup. repeat split; [lia | lia |].
  exists r. rewrite !Nat2Z.id. split; [done |]. by rewrite Hcells.
Qed.

(** [isGridEmpty] answers [false] exactly when some cell is alive. *)
Lemma row_alive (r : list bool) :
  forallb (λ cell : bool, negb cell) r = false ↔ ∃ j, r !! j = Some true.
Proof.
  induction r as [|b r IH]; cbn.
  - split; [done | by intros [j Hj]].
  - destruct b; cbn.
    + split; [by exists 0%nat | done].
    + rewrite IH. split.
      * intros [j Hj]. by exists (S j).
      * intros [[|j] Hj]; [done | by exists j].
Qed.

Lemma isGridEmpty_false (g : Grid) :
  isGridEmpty g = false ↔ ∃ i j r, g !! i = Some r ∧ r !! j = Some true.
Proof.
  unfold isGridEmpty. induction g as [|r g IH]; cbn.
  - split; [done | by intros (i & j & r & Hr & _)].
  - rewrite andb_false_iff, IH, row_alive. split.
    + intros [[j Hj] | (i & j & r' & Hr' & Hj)].
      * by exists 0%nat, j, r.
      * by exists (S i), j, r'.
    + intros ([|i] & j & r' & Hr' & Hj).
      * left. exists j. cbn in Hr'. congruence.
      * right. by exists i, j, r'.
Qed.

Lemma isGridEmpty_true (g : Grid) :
  isGridEmpty g = true ↔ Forall (Forall (λ b, b = false)) g.
Proof.
  unfold isGridEmpty. induction g as [|r g IH]; cbn.
  - split; [constructor | done].
  - rewrite andb_true_iff, IH, Forall_cons.
    apply and_iff_compat_r.
    induction r as [|b r IHr]; cbn.
    + split; [constructor | done].
    + rewrite andb_true_iff, IHr, Forall_cons.
      apply and_iff_compat_r. by destruct b.
Qed.

Lemma seeded_true (draw : Q) :
  seeded draw = true ↔ (draw < 1 # 4)%Q.
Proof.
  unfold seeded, INITIAL_DENSITY.
  destruct (Qlt_le_dec draw (1 # 4)) as [Hlt | Hle]; split; try done.
  intros Hlt. by apply Qlt_not_le in Hlt.
Qed.

Lemma nextGeneration_rectangular (G : list (list bool)) (rows cols : nat) :
  rectangular G rows cols →
  ∃ G', result (nextGeneration G) = Ok G' ∧ rectangular G' rows cols.
Proof.
  intros Hrect.
  destruct (nextGeneration_rect G rows cols Hrect) as (G' & HG' & _ & Hlen & Hrows).
  exists G'. split; [done |]. destruct Hrect as [HG Hall]. split; [congruence |].
  apply Forall_lookup. intros i r' Hr'.
  destruct (lookup_lt_is_Some_2 G i) as [r Hr].
  { apply lookup_lt_Some in Hr'. lia. }
  destruct (Hrows i r Hr) as (r'' & Hr'' & Hl & _).
  pose proof (proj1 (Forall_lookup _ _) Hall _ _ Hr) as Hc. cbn in Hc.
  congruence.
Qed.

(** C3.  Grid-producing operations keep the grid rectangular with the same
    dimensions: [nextGeneration] of a rectangular [rows × cols] grid is a
    rectangular [rows × cols] grid, and so is what [setCellAlive] leaves in
    state for an in-bounds cell; the two allocators build rectangular grids
    of the dimensions they are given. *)
Theorem grids_stay_rectangular (G : list (list bool)) (rows cols : nat) :
  rectangular G rows cols →
  (∃ G', result (nextGeneration G) = Ok G' ∧ rectangular G' rows cols)
  ∧ (∀ row col, 0 <= row < Z.of_nat rows → 0 <= col < Z.of_nat cols →
       ∃ p G', result (setCellAlive G row col) = Ok p
               ∧ painted_grid G p = Some G'
               ∧ rectangular G' rows cols)
  ∧ (∀ r c, rectangular (createEmptyGrid r c) r c)
  ∧ (∀ rnd r c, rectangular (createRandomGrid rnd r c) r c).
Proof.
  intros Hrect. split; [by apply nextGeneration_rectangular |].
  split; [| split; [apply createEmptyGrid_rectangular
                   | apply createRandomGrid_rectangular]].
  intros row col Hrow Hcol.
  destruct (rect_cell G rows cols Hrect row col Hrow Hcol)
    as (r & b & Hr & _ & Hb & _).
  rewrite (setCellAlive_in_grid G row col r b Hr Hb).
  destruct b.
  - exists Same, G. split; [done |]. split; [done |]. exact Hrect.
  - eexists _, _. split; [reflexivity |]. split; [reflexivity |].
    apply rectangular_insert; [done |].
    by rewrite js_index_lookup in Hr by lia.
Qed.

Lemma grids_stay_rectangular_witness :
  (∃ G', result (nextGeneration [[true; false]; [false; true]]) = Ok G'
         ∧ rectangular G' 2 2)
  ∧ (∀ row col, 0 <= row < Z.of_nat 2 → 0 <= col < Z.of_nat 2 →
       ∃ p G', result (setCellAlive [[true; false]; [false; true]] row col) = Ok p
               ∧ painted_grid [[true; false]; [false; true]] p = Some G'
               ∧ rectangular G' 2 2)
  ∧ (∀ r c, rectangular (createEmptyGrid r c) r c)
  ∧ (∀ rnd r c, rectangular (createRandomGrid rnd r c) r c).
Proof.
  apply (grids_stay_rectangular [[true; false]; [false; true]] 2 2).
  split; [reflexivity |]. repeat constructor.
Defined.

(** C4.  The grid operations are total on rectangular grids.  On a grid
    with zero rows or zero columns [nextGeneration] returns the same grid
    and reads nothing at all.  On every rectangular grid [nextGeneration]
    returns a grid and each index it (and [countNeighbors] inside it) reads
    at hits an element; at every in-bounds position [countNeighbors] and
    [setCellAlive] return without a [TypeError] and read in bounds only. *)
Theorem operations_total (G : list (list bool)) (rows cols : nat) :
  rectangular G rows cols →
  ((rows = 0 ∨ cols = 0)%nat → nextGeneration G = ([], Ok G))
  ∧ (∃ G', result (nextGeneration G) = Ok G'
           ∧ Forall in_bounds (reads (nextGeneration G)))
  ∧ (∀ row col, 0 <= row < Z.of_nat rows → 0 <= col < Z.of_nat cols →
       (∃ n, result (countNeighbors G row col) = Ok n
             ∧ Forall in_bounds (reads (countNeighbors G row col)))
       ∧ (∃ p, result (setCellAlive G row col) = Ok p
               ∧ Forall in_bounds (reads (setCellAlive G row col)))).
Proof.
  intros Hrect. split; [| split].
  - intros Hzero. apply nextGeneration_no_cells.
    by apply (zero_dimension_rows G rows cols).
  - destruct (nextGeneration_rect G rows cols Hrect) as (G' & HG' & Hreads & _).
    by exists G'.
  - intros row col Hrow Hcol. split.
    + rewrite (countNeighbors_torus G rows cols Hrect) by lia.
      eexists. split; [reflexivity |].
      apply neighborReads_in_bounds; lia.
    + destruct (rect_cell G rows cols Hrect row col Hrow Hcol)
        as (r & b & Hr & _ & Hb & _).
      eexists. split; [by apply (setCellAlive_in_grid G row col r b) |].
      by apply (setCellAlive_reads G row col r b).
Qed.

Lemma operations_total_witness :
  ((2 = 0 ∨ 0 = 0)%nat → nextGeneration [[]; []] = ([], Ok [[]; []]))
  ∧ (∃ G', result (nextGeneration [[]; []]) = Ok G'
           ∧ Forall in_bounds (reads (nextGeneration [[]; []])))
  ∧ (∀ row col, 0 <= row < Z.of_nat 2 → 0 <= col < Z.of_nat 0 →
       (∃ n, result (countNeighbors [[]; []] row col) = Ok n
             ∧ Forall in_bounds (reads (countNeighbors [[]; []] row col)))
       ∧ (∃ p, result (setCellAlive [[]; []] row col) = Ok p
               ∧ Forall in_bounds (reads (setCellAlive [[]; []] row col)))).
Proof.
  apply (operations_total [[]; []] 2 0).
  split; [reflexivity |]. repeat constructor.
Defined.

(** ** Lifecycle *)

(** C5, as amended.  [start] always sets [running] and keeps the
    dimensions.  On a grid with a live cell it leaves the grid unchanged.
    On an entirely dead grid it replaces the grid with the random grid of
    the current dimensions, whose cell [(i,j)] is alive exactly when the
    draw made for it is below 0.25; that grid is non-empty exactly when one
    of these draws is below 0.25. *)
Theorem start_seeds_when_empty (rnd : nat → Q) (st : App) :
  running (start rnd st) = true
  ∧ dimensions (start rnd st) = dimensions st
  ∧ (isGridEmpty (grid st) = false → grid (start rnd st) = grid st)
  ∧ (isGridEmpty (grid st) = true →
       grid (start rnd st)
       = createRandomGrid rnd (rows (dimensions st)) (cols (dimensions st))
       ∧ rectangular (grid (start rnd st))
           (rows (dimensions st)) (cols (dimensions st))
       ∧ (∀ i j : nat,
            (i < rows (dimensions st))%nat → (j < cols (dimensions st))%nat →
            cell (grid (start rnd st)) (Z.of_nat i) (Z.of_nat j)
            = Some (seeded (rnd (i * cols (dimensions st) + j)%nat)))
       ∧ (isGridEmpty (grid (start rnd st)) = false ↔
          ∃ i j : nat,
            (i < rows (dimensions st))%nat ∧ (j < cols (dimensions st))%nat
            ∧ (rnd (i * cols (dimensions st) + j)%nat < 1 # 4)%Q)).
Proof.
  unfold start. cbn [running dimensions grid].
  split; [done |]. split; [done |]. split.
  { by intros ->. }
  intros ->. set (R := rows (dimensions st)). set (C := cols (dimensions st)).
  split; [done |]. split; [apply createRandomGrid_rectangular |].
  split; [intros i j; apply createRandomGrid_cell |].
  rewrite isGridEmpty_false. split.
  - intros (i & j & r & Hr & Hj).
    destruct (createRandomGrid_rectangular rnd R C) as [Hlen Hall].
    pose proof (lookup_lt_Some _ _ _ Hr) as Hi.
    pose proof (lookup_lt_Some _ _ _ Hj) as Hjlt.
    pose proof (proj1 (Forall_lookup _ _) Hall _ _ Hr) as Hc. cbn in Hc.
    exists i, j. split; [lia |]. split; [lia |].
    apply seeded_true.
    pose proof (createRandomGrid_cell rnd R C i j) as Hcell.
    assert (cell (createRandomGrid rnd R C) (Z.of_nat i) (Z.of_nat j)
            = Some true) as Halive.
    { apply cell_lookup. rewrite !Nat2Z.id. repeat split; [lia | lia | eauto]. }
    rewrite Halive in Hcell. symmetry. injection Hcell; [done | lia | lia].
  - intros (i & j & Hi & Hj & Hlt).
    pose proof (createRandomGrid_cell rnd R C i j Hi Hj) as Hcell.
    rewrite (proj2 (seeded_true _) Hlt) in Hcell.
    apply cell_lookup in Hcell as (_ & _ & r & Hr & Hc).
    rewrite !Nat2Z.id in *. eauto.
Qed.

(** C5, as stated, fails: on an entirely dead 2×2 grid, when the four draws
    of [Math.random()] are all 0.5, the grid [start] installs is still
    entirely dead. *)
Lemma start_can_leave_grid_empty :
  isGridEmpty (createEmptyGrid 2 2) = true
  ∧ isGridEmpty
      (grid (start (λ _, 1 # 2)%Q
         {| dimensions := {| cols := 2; rows := 2 |};
            grid := createEmptyGrid 2 2;
            running := false; isPainting := false |})) = true
  ∧ running
      (start (λ _, 1 # 2)%Q
         {| dimensions := {| cols := 2; rows := 2 |};
            grid := createEmptyGrid 2 2;
            running := false; isPainting := false |}) = true.
Proof. repeat split. Qed.

(** C6.  Whatever the prior state, after [clear] the running flag is false
    and the grid is the [rows × cols] grid of the current dimensions with
    every cell false. *)
Theorem clear_resets (st : App) :
  running (clear st) = false
  ∧ rectangular (grid (clear st)) (rows (dimensions st)) (cols (dimensions st))
  ∧ Forall (Forall (λ b, b = false)) (grid (clear st))
  ∧ isGridEmpty (grid (clear st)) = true
  ∧ dimensions (clear st) = dimensions st.
Proof.
  unfold clear. cbn [running grid dimensions].
  split; [done |]. split; [apply createEmptyGrid_rectangular |].
  split; [apply createEmptyGrid_dead |]. split; [| done].
  apply isGridEmpty_true, createEmptyGrid_dead.
Qed.

(** ** Painting *)

Lemma paint_alive (G : list (list bool)) (row col : Z) :
  cell G row col = Some true → paint G row col = Some G.
Proof.
  intros (r & Hr & Hc)%cell_split. unfold paint.
  by rewrite (setCellAlive_in_grid G row col r true Hr Hc).
Qed.

(** C7.  Painting is idempotent: on a cell that is already alive
    [setCellAlive] returns the grid it was given, the same array and not a
    copy, so painting that cell any number of times leaves the grid as it
    is. *)
Theorem setCellAlive_idempotent (G : list (list bool)) (row col : Z) :
  cell G row col = Some true →
  result (setCellAlive G row col) = Ok Same
  ∧ ∀ n, paintTimes n G row col = Some G.
Proof.
  intros Halive. split.
  - destruct (cell_split _ _ _ _ Halive) as (r & Hr & Hc).
    by rewrite (setCellAlive_in_grid G row col r true Hr Hc).
  - induction n as [|n IH]; [done |].
    cbn [paintTimes]. by rewrite (paint_alive _ _ _ Halive).
Qed.

Lemma setCellAlive_idempotent_witness :
  result (setCellAlive [[false; true]; [false; false]] 0 1) = Ok Same
  ∧ ∀ n, paintTimes n [[false; true]; [false; false]] 0 1
         = Some [[false; true]; [false; false]].
Proof.
  apply (setCellAlive_idempotent [[false; true]; [false; false]] 0 1).
  reflexivity.
Defined.

(** C8.  Painting only sets cells alive.  For an in-bounds cell
    [(row, col)] the grid [setCellAlive] leaves in state has that cell
    alive, every other cell as before, and every cell that was alive still
    alive. *)
Theorem setCellAlive_only_sets (G : list (list bool)) (row col : Z) (c : bool) :
  cell G row col = Some c →
  ∃ p G', result (setCellAlive G row col) = Ok p
          ∧ painted_grid G p = Some G'
          ∧ cell G' row col = Some true
          ∧ (∀ i j, (i, j) ≠ (row, col) → cell G' i j = cell G i j)
          ∧ (∀ i j, cell G i j = Some true → cell G' i j = Some true).
Proof.
  intros Hcell. destruct (cell_split _ _ _ _ Hcell) as (r & Hr & Hc).
  rewrite (setCellAlive_in_grid G row col r c Hr Hc). destruct c.
  - exists Same, G. repeat split; done.
  - eexists _, _. split; [reflexivity |]. split; [reflexivity |].
    split; [| split].
    + rewrite (cell_insert G row col r false row col Hr Hc).
      by rewrite !Z.eqb_refl.
    + intros i j Hne. rewrite (cell_insert G row col r false i j Hr Hc).
      destruct (Z.eqb_spec i row) as [->|]; [| done].
      destruct (Z.eqb_spec j col) as [->|]; done.
    + intros i j Halive. rewrite (cell_insert G row col r false i j Hr Hc).
      by destruct ((i =? row) && (j =? col)).
Qed.

Lemma setCellAlive_only_sets_witness :
  ∃ p G', result (setCellAlive [[false; true]; [false; false]] 1 0) = Ok p
          ∧ painted_grid [[false; true]; [false; false]] p = Some G'
          ∧ cell G' 1 0 = Some true
          ∧ (∀ i j, (i, j) ≠ (1, 0) →
               cell G' i j = cell [[false; true]; [false; false]] i j)
          ∧ (∀ i j, cell [[false; true]; [false; false]] i j = Some true →
               cell G' i j = Some true).
Proof.
  apply (setCellAlive_only_sets [[false; true]; [false; false]] 1 0 false).
  reflexivity.
Defined.

(** ** Small grids *)

(** C9.  On the 3×3 grid whose live cells are the block [(0,0)], [(0,1)],
    [(1,0)], [(1,1)], [nextGeneration] returns the grid it was given: with
    wraparound every cell has the 8 other cells as neighbours, so a live
    cell counts 3 and a dead cell counts 4. *)
Theorem block_is_still_life :
  result (nextGeneration [[true; true; false]; [true; true; false];
                          [false; false; false]])
  = Ok [[true; true; false]; [true; true; false]; [false; false; false]]
  ∧ result (countNeighbors [[true; true; false]; [true; true; false];
                            [false; false; false]] 0 0) = Ok 3
  ∧ result (countNeighbors [[true; true; false]; [true; true; false];
                            [false; false; false]] 2 2) = Ok 4.
Proof. repeat split. Qed.

Lemma visited_torus (G : list (list bool)) (rows cols : nat) (row col : Z) :
  rectangular G rows cols →
  0 <= row < Z.of_nat rows → 0 <= col < Z.of_nat cols →
  visited G row col =
  (λ d, (Some ((row + d.1) `mod` Z.of_nat rows),
         Some ((col + d.2) `mod` Z.of_nat cols))) <$> offsets.
Proof.
  intros Hrect Hrow Hcol. unfold visited.
  by rewrite (countNeighbors_torus G rows cols Hrect) by lia.
Qed.

Lemma offsets_nonzero d : d ∈ offsets → d.1 ≠ 0 ∨ d.2 ≠ 0.
Proof.
  change offsets with
    [(-1, -1); (-1, 0); (-1, 1); (0, -1); (0, 1); (1, -1); (1, 0); (1, 1)].
  rewrite !elem_of_cons, elem_of_nil.
  intros H; repeat destruct H as [-> | H]; try done; cbn; lia.
Qed.

(** Offsets -1 and 1 wrap to the same index when the dimension is 1 or 2. *)
Lemma wrap_collide (x n : Z) :
  n = 1 ∨ n = 2 → (x + -1) `mod` n = (x + 1) `mod` n.
Proof.
  intros [-> | ->].
  - by rewrite !Z.mod_1_r.
  - replace (x + 1) with (x + -1 + 1 * 2) by lia. by rewrite Z_mod_plus_full.
Qed.

(** A non-zero offset wraps back to where it started only in dimension 1. *)
Lemma wrap_fixed (x d n : Z) :
  0 <= x < n → -1 <= d <= 1 → (x + d) `mod` n = x → d = 0 ∨ n = 1.
Proof.
  intros Hx Hd Hfix.
  destruct (Z.eq_dec d 0) as [|Hd0]; [by left |]. right.
  assert (d = -1 ∨ d = 1) as [-> | ->] by lia.
  - destruct (Z.eq_dec x 0) as [-> | Hx0].
    + replace (0 + -1) with (n - 1 + (-1) * n) in Hfix by lia.
      rewrite Z_mod_plus_full, Z.mod_small in Hfix by lia. lia.
    + rewrite Z.mod_small in Hfix by lia. lia.
  - destruct (Z.eq_dec (x + 1) n) as [Hn | Hn].
    + rewrite Hn, Z_mod_same_full in Hfix. lia.
    + rewrite Z.mod_small in Hfix by lia. lia.
Qed.

(** C10, as amended.  On a rectangular grid with fewer than 3 rows or fewer
    than 3 columns, [countNeighbors] looks at one cell under two different
    offsets.  The cell [(row, col)] itself is among the cells it looks at
    exactly when the grid has a single row or a single column.  On the 1×1
    grid whose cell is alive all 8 offsets hit that cell, the count is 8,
    and the cell dies under [nextGeneration]. *)
Theorem small_grids_repeat_cells (G : list (list bool)) (rows cols : nat)
    (row col : Z) :
  rectangular G rows cols →
  0 <= row < Z.of_nat rows → 0 <= col < Z.of_nat cols →
  ((rows < 3 ∨ cols < 3)%nat →
     ∃ (k1 k2 : nat) p, k1 ≠ k2 ∧ visited G row col !! k1 = Some p
                        ∧ visited G row col !! k2 = Some p)
  ∧ (((Some row, Some col) ∈ visited G row col) ↔ (rows = 1 ∨ cols = 1)%nat)
  ∧ result (countNeighbors [[true]] 0 0) = Ok 8
  ∧ visited [[true]] 0 0 = replicate 8 (Some 0, Some 0)
  ∧ result (nextGeneration [[true]]) = Ok [[false]].
Proof.
  intros Hrect Hrow Hcol.
  rewrite (visited_torus G rows cols row col Hrect Hrow Hcol).
  split; [| split; [| by repeat split]].
  - intros [Hsmall | Hsmall].
    + exists 0%nat, 5%nat. eexists. split; [done |]. split; [reflexivity |].
      cbn. by rewrite (wrap_collide row (Z.of_nat rows)) by lia.
    + exists 0%nat, 2%nat. eexists. split; [done |]. split; [reflexivity |].
      cbn. by rewrite (wrap_collide col (Z.of_nat cols)) by lia.
  - rewrite list_elem_of_fmap. split.
    + intros (d & Heq & Hd). injection Heq as Hr Hc.
      destruct (offsets_range d Hd) as [Hd1 Hd2].
      destruct (wrap_fixed row d.1 (Z.of_nat rows)) as [H1 | H1]; try done;
        [| lia].
      destruct (wrap_fixed col d.2 (Z.of_nat cols)) as [H2 | H2]; try done;
        [| lia].
      destruct (offsets_nonzero d Hd); lia.
    + intros [Hone | Hone].
      * exists (-1, 0). split; [| by apply list_elem_of_In; cbn; tauto].
        cbn. assert (row = 0) as -> by lia. subst rows.
        rewrite Z.mod_1_r, Z.add_0_r, Z.mod_small by lia. done.
      * exists (0, -1). split; [| by apply list_elem_of_In; cbn; tauto].
        cbn. assert (col = 0) as -> by lia. subst cols.
        rewrite Z.mod_1_r, Z.add_0_r, Z.mod_small by lia. done.
Qed.

Lemma small_grids_repeat_cells_witness :
  ((2 < 3 ∨ 2 < 3)%nat →
     ∃ (k1 k2 : nat) p,
       k1 ≠ k2 ∧ visited [[true; false]; [false; false]] 0 0 !! k1 = Some p
       ∧ visited [[true; false]; [false; false]] 0 0 !! k2 = Some p)
  ∧ (((Some 0, Some 0) ∈ visited [[true; false]; [false; false]] 0 0)
     ↔ (2 = 1 ∨ 2 = 1)%nat)
  ∧ result (countNeighbors [[true]] 0 0) = Ok 8
  ∧ visited [[true]] 0 0 = replicate 8 (Some 0, Some 0)
  ∧ result (nextGeneration [[true]]) = Ok [[false]].
Proof.
  apply (small_grids_repeat_cells [[true; false]; [false; false]] 2 2 0 0).
  - split; [reflexivity |]. repeat constructor.
  - lia.
  - lia.
Defined.

(** C10, as stated, fails: the 2×2 grid has fewer than 3 rows and columns,
    yet [countNeighbors] at [(0,0)] never looks at the cell [(0,0)]; with
    that cell the only live one, the count is 0. *)
Lemma self_not_counted_on_2x2 :
  rectangular [[true; false]; [false; false]] 2 2
  ∧ ((Some 0, Some 0) ∉ visited [[true; false]; [false; false]] 0 0)
  ∧ result (countNeighbors [[true; false]; [false; false]] 0 0) = Ok 0.
Proof.
  split; [split; [reflexivity | repeat constructor] |].
  split; [| reflexivity].
  intros Hin. apply list_elem_of_In in Hin. vm_compute in Hin.
  repeat destruct Hin as [Hin | Hin]; try discriminate Hin. exact Hin.
Qed.

(** ** Further properties of the grid functions *)

Lemma isGridEmpty_iff_dead (g : list (list bool)) :
  isGridEmpty g = true ↔ ∀ i j, cell g i j ≠ Some true.
Proof.
  split.
  - intros Hempty i j Halive.
    apply cell_lookup in Halive as (_ & _ & r & Hr & Hc).
    assert (isGridEmpty g = false) as Hne; [| congruence].
    apply isGridEmpty_false. eauto.
  - intros Hdead. destruct (isGridEmpty g) eqn:He; [done |].
    apply isGridEmpty_false in He as (i & j & r & Hr & Hc).
    destruct (Hdead (Z.of_nat i) (Z.of_nat j)).
    apply cell_lookup. rewrite !Nat2Z.id. repeat split; [lia | lia | eauto].
Qed.

(** X1.  [isGridEmpty] answers [true] exactly when no cell of the grid is
    alive, whatever the shape of the grid (ragged rows, no rows, no
    columns). *)
Theorem isGridEmpty_no_live_cell (g : list (list bool)) :
  isGridEmpty g = true ↔ ∀ i j, cell g i j ≠ Some true.
Proof. apply isGridEmpty_iff_dead. Qed.

Lemma randomRow_ext (rnd rnd' : nat → Q) (cols cursor : nat) :
  (∀ k, (cursor <= k < cursor + cols)%nat → rnd k = rnd' k) →
  randomRow rnd cursor cols = randomRow rnd' cursor cols.
Proof.
  revert cursor. induction cols as [|cols IH]; intros cursor Heq; [done |].
  cbn [randomRow]. rewrite (Heq cursor) by lia.
  rewrite (IH (S cursor)); [done |]. intros k Hk. apply Heq. lia.
Qed.

Lemma randomRows_ext (rnd rnd' : nat → Q) (rows cols cursor : nat) :
  (∀ k, (cursor <= k < cursor + rows * cols)%nat → rnd k = rnd' k) →
  randomRows rnd cursor rows cols = randomRows rnd' cursor rows cols.
Proof.
  revert cursor. induction rows as [|rows IH]; intros cursor Heq; [done |].
  cbn [randomRows].
  rewrite (randomRow_ext rnd rnd' cols cursor) by (intros k Hk; apply Heq; lia).
  pose proof (randomRow_spec rnd' cols cursor) as (Hc & _).
  destruct (randomRow rnd' cursor cols) as [r cursor']. cbn [snd] in Hc.
  rewrite (IH cursor'); [done |]. intros k Hk. apply Heq. lia.
Qed.

Lemma randomRows_cursor (rnd : nat → Q) (rows cols cursor : nat) :
  (randomRows rnd cursor rows cols).2 = (cursor + rows * cols)%nat.
Proof.
  revert cursor. induction rows as [|rows IH]; intros cursor; [cbn; lia |].
  cbn [randomRows].
  pose proof (randomRow_spec rnd cols cursor) as (Hc & _).
  destruct (randomRow rnd cursor cols) as [r cursor']. cbn [snd] in Hc.
  specialize (IH cursor').
  destruct (randomRows rnd cursor' rows cols) as [rest cursor''].
  cbn [snd] in *. lia.
Qed.

(** X2.  [createRandomGrid] calls [Math.random()] exactly [rows * cols]
    times, and the grid it builds depends on nothing but these draws. *)
Theorem createRandomGrid_draws (rnd rnd' : nat → Q) (rows cols : nat) :
  (∀ k, (k < rows * cols)%nat → rnd k = rnd' k) →
  (randomRows rnd 0 rows cols).2 = (rows * cols)%nat
  ∧ createRandomGrid rnd rows cols = createRandomGrid rnd' rows cols.
Proof.
  intros Heq. split; [by rewrite randomRows_cursor |].
  unfold createRandomGrid.
  rewrite (randomRows_ext rnd rnd' rows cols 0); [done |].
  intros k Hk. apply Heq. lia.
Qed.

Lemma createRandomGrid_draws_witness :
  (randomRows (λ k, if (k <? 2)%nat then 0 else 1)%Q 0 1 2).2 = (1 * 2)%nat
  ∧ createRandomGrid (λ k, if (k <? 2)%nat then 0 else 1)%Q 1 2
    = createRandomGrid (λ _, 0%Q) 1 2.
Proof.
  apply (createRandomGrid_draws
           (λ k, if (k <? 2)%nat then 0 else 1)%Q (λ _, 0%Q) 1 2).
  intros k Hk. destruct (Nat.ltb_spec k 2); [reflexivity | lia].
Defined.

Lemma dead_cells (g : Grid) (i j : Z) :
  isGridEmpty g = true → truthy (cell g i j) = false.
Proof.
  intros Hempty. destruct (cell g i j) as [[|]|] eqn:Hc; try done.
  by destruct (proj1 (isGridEmpty_iff_dead g) Hempty i j).
Qed.

Lemma toroidalNeighbors_dead (rows cols : nat) (g : Grid) (row col : Z) :
  isGridEmpty g = true → toroidalNeighbors rows cols g row col = 0.
Proof.
  intros Hempty. unfold toroidalNeighbors.
  rewrite (List.filter_ext _ (λ _, false)); [| intros d; by apply dead_cells].
  by induction offsets.
Qed.

(** X3.  An entirely dead rectangular grid is a fixed point of
    [nextGeneration]: stepping a cleared grid changes nothing. *)
Theorem nextGeneration_dead_grid (G : list (list bool)) (rows cols : nat) :
  rectangular G rows cols → isGridEmpty G = true →
  result (nextGeneration G) = Ok G.
Proof.
  intros Hrect Hempty.
  destruct (nextGeneration_rect G rows cols Hrect) as (G' & HG' & _ & Hlen & Hrows).
  rewrite HG'. f_equal. apply list_eq_same_length with (length G); try done.
  intros i r' r Hi Hr' Hr.
  destruct (Hrows i r Hr) as (r'' & Hr'' & Hl & Hcells).
  assert (r'' = r') as -> by congruence.
  apply list_eq_same_length with (length r); try done.
  intros j c' c Hj Hc' Hc.
  rewrite (Hcells j c Hc) in Hc'. injection Hc' as <-.
  rewrite toroidalNeighbors_dead by done.
  pose proof (dead_cells G (Z.of_nat i) (Z.of_nat j) Hempty) as Hd.
  rewrite (proj2 (cell_lookup G _ _ c)) in Hd.
  - cbn in Hd. by subst c.
  - rewrite !Nat2Z.id. repeat split; [lia | lia | eauto].
Qed.

Lemma nextGeneration_dead_grid_witness :
  result (nextGeneration (createEmptyGrid 2 3)) = Ok (createEmptyGrid 2 3).
Proof.
  apply (nextGeneration_dead_grid (createEmptyGrid 2 3) 2 3).
  - split; [reflexivity |]. repeat constructor.
  - reflexivity.
Defined.

(** ** Neighbour counting on any array of rows *)

Lemma js_rem_range (x n : Z) :
  0 <= x → 0 < n → ∃ z, js_rem x n = Some z ∧ 0 <= z < n.
Proof.
  intros Hx Hn. unfold js_rem. rewrite (proj2 (Z.eqb_neq n 0)) by lia.
  eexists. split; [reflexivity |]. by apply Z.rem_bound_pos.
Qed.

Lemma visit_returns (G : list (list bool)) (row col cols i j count : Z) :
  G ≠ [] → 0 <= row → -1 <= i →
  ∃ l n, visit G row col (Z.of_nat (length G)) cols i j count = (l, Ok n).
Proof.
  intros HG Hrow Hi. unfold visit.
  destruct ((i =? 0) && (j =? 0)); [by eexists _, _ |].
  assert (0 < Z.of_nat (length G)) as Hlen by (destruct G; [done | cbn; lia]).
  destruct (js_rem_range (row + i + Z.of_nat (length G)) (Z.of_nat (length G)))
    as (z & -> & Hz); [lia | lia |].
  destruct (js_index_in_range G z Hz) as [r Hr].
  rewrite (bind_Ok _ _ _ _ (read_defined _ _ _ Hr)).
  unfold read. rewrite (bind_Ok _ _ _ _ eq_refl). by eexists _, _.
Qed.

Lemma forM_returns {A S} (P : A → Prop) (body : A → S → M S) (xs : list A) :
  (∀ x s, P x → ∃ l s', body x s = (l, Ok s')) →
  Forall P xs → ∀ s, ∃ l s', forM xs s body = (l, Ok s').
Proof.
  intros Hbody HP. induction HP as [|x xs Hx _ IH]; intros s.
  - by eexists _, _.
  - cbn [forM]. destruct (Hbody x s Hx) as (l & s' & Hs').
    destruct (IH s') as (l' & s'' & Hs'').
    exists (l ++ l'), s''. by apply (bind_runs _ _ l s').
Qed.

Lemma countNeighbors_returns (G : list (list bool)) (row col : Z) :
  G ≠ [] → 0 <= row → ∃ l n, countNeighbors G row col = (l, Ok n).
Proof.
  intros HG Hrow. rewrite countNeighbors_unfold.
  destruct G as [|first rest] eqn:HGeq; [done |]. rewrite <- HGeq in *.
  assert (js_index G (Some 0) = Some first) as Hfirst by by subst G.
  destruct (forM_returns (λ i, -1 <= i)
              (λ i count, forM [-1; 0; 1] count
                 (visit G row col (Z.of_nat (length G))
                    (Z.of_nat (length first)) i)) [-1; 0; 1]) with (s := 0)
    as (l & n & Hloops).
  - intros i s Hi. apply (forM_returns (λ _, True)).
    + intros j s' _. by apply visit_returns.
    + by repeat constructor.
  - repeat constructor; lia.
  - eexists _, n. eapply bind_runs; [by apply read_defined | exact Hloops].
Qed.

(** X5.  At a row index that is not negative, [countNeighbors] throws
    exactly on the grid without rows (where [grid[0].length] reads a
    property of [undefined]); on any other array of rows, ragged or with
    empty rows, and at any column, it returns a count. *)
Theorem countNeighbors_throws_iff_no_rows (G : list (list bool)) (row col : Z) :
  0 <= row →
  (result (countNeighbors G row col) = TypeError ↔ G = [])
  ∧ (G ≠ [] → ∃ n, result (countNeighbors G row col) = Ok n).
Proof.
  intros Hrow. split; [split |].
  - intros Hthrow. destruct G as [|first rest]; [done |].
    destruct (countNeighbors_returns (first :: rest) row col) as (l & n & Hn);
      [done | done |].
    rewrite Hn in Hthrow. discriminate Hthrow.
  - by intros ->.
  - intros HG. destruct (countNeighbors_returns G row col HG Hrow)
      as (l & n & Hn).
    exists n. by rewrite Hn.
Qed.

Lemma countNeighbors_throws_iff_no_rows_witness :
  (result (countNeighbors [[true]; []] 7 5) = TypeError ↔ [[true]; []] = [])
  ∧ ([[true]; []] ≠ [] → ∃ n, result (countNeighbors [[true]; []] 7 5) = Ok n).
Proof. apply (countNeighbors_throws_iff_no_rows [[true]; []] 7 5). lia. Defined.

(** X4.  [nextGeneration] never throws, on any array of rows: it returns
    an array with as many rows, each as long as the row it comes from. *)
Theorem nextGeneration_never_throws (G : list (list bool)) :
  ∃ G', result (nextGeneration G) = Ok G'
        ∧ Forall2 (λ r r' : list bool, length r' = length r) G G'.
Proof.
  unfold nextGeneration, mapiM.
  match goal with |- context [mapiM_from ?f 0 G] =>
    destruct (mapiM_from_spec f (λ _, True)
                (λ _ (r r' : list bool), length r' = length r) G 0)
      as (G' & HG' & _ & Hlen & Hrows)
  end.
  - intros i r Hr.
    match goal with |- context [mapiM_from ?f 0 r] =>
      destruct (mapiM_from_spec f (λ _, True) (λ _ (_ _ : bool), True) r 0)
        as (r' & Hr' & _ & Hlen & _)
    end.
    + intros j c Hc.
      destruct (countNeighbors_returns G (0 + Z.of_nat i) (0 + Z.of_nat j))
        as (l & n & Hn); [by intros -> | lia |].
      rewrite (bind_Ok _ _ _ _ Hn).
      destruct c; eexists; (split; [reflexivity |]); split; try done;
        by apply Forall_true.
    + exists r'. split; [done |]. split; [by apply Forall_true | done].
  - exists G'. split; [done |].
    apply Forall2_same_length_lookup_2; [done |].
    intros i r r' Hr Hr'. destruct (Hrows i r Hr) as (r'' & Hr'' & Hl).
    congruence.
Qed.

(** ** Positions beyond the grid, and the neighbourhood on larger grids *)





Lemma toroidalNeighbors_periodic (rows cols : nat) (g : Grid) (row col : Z) :
  toroidalNeighbors rows cols g (row `mod` Z.of_nat rows)
                    (col `mod` Z.of_nat cols)
  = toroidalNeighbors rows cols g row col.
Proof.
  unfold toroidalNeighbors. do 2 f_equal. apply List.filter_ext. intros d.
  by rewrite !Zplus_mod_idemp_l.
Qed.



(** Different offsets wrap to different indices in a dimension of 3 or
    more. *)
Lemma wrap_inj (x d d' n : Z) :
  3 <= n → -1 <= d <= 1 → -1 <= d' <= 1 →
  (x + d) `mod` n = (x + d') `mod` n → d = d'.
Proof.
  intros Hn Hd Hd' Heq.
  assert ((d - d') `mod` n = 0) as H1.
  { replace (d - d') with ((x + d) - (x + d')) by lia.
    by rewrite Zminus_mod, Heq, Z.sub_diag, Z.mod_0_l by lia. }
  assert ((d' - d) `mod` n = 0) as H2.
  { replace (d' - d) with ((x + d') - (x + d)) by lia.
    by rewrite Zminus_mod, Heq, Z.sub_diag, Z.mod_0_l by lia. }
  destruct (Z_le_dec d' d).
  - rewrite Z.mod_small in H1 by lia. lia.
  - rewrite Z.mod_small in H2 by lia. lia.
Qed.

Lemma offsets_NoDup : NoDup offsets.
Proof.
  change offsets with
    [(-1, -1); (-1, 0); (-1, 1); (0, -1); (0, 1); (1, -1); (1, 0); (1, 1)].
  repeat (apply NoDup_cons; split;
          [rewrite ?not_elem_of_cons; repeat split; (done || apply not_elem_of_nil) |]).
  apply NoDup_nil_2.
Qed.

(** X7.  On a rectangular grid with at least 3 rows and 3 columns,
    [countNeighbors] looks at 8 cells that are pairwise different and none
    of which is the cell [(row, col)] itself: each neighbour is counted
    once and the cell never counts itself. *)
Theorem countNeighbors_eight_distinct (G : list (list bool)) (rows cols : nat)
    (row col : Z) :
  rectangular G rows cols → (3 <= rows)%nat → (3 <= cols)%nat →
  0 <= row < Z.of_nat rows → 0 <= col < Z.of_nat cols →
  length (visited G row col) = 8%nat
  ∧ NoDup (visited G row col)
  ∧ ((Some row, Some col) ∉ visited G row col).
Proof.
  intros Hrect Hrows Hcols Hrow Hcol.
  rewrite (visited_torus G rows cols row col Hrect Hrow Hcol).
  split; [done |]. split.
  - apply NoDup_fmap_2_strong; [| apply offsets_NoDup].
    intros [d1 d2] [e1 e2] Hd He Heq. injection Heq as H1 H2.
    destruct (offsets_range _ Hd) as [Hd1 Hd2].
    destruct (offsets_range _ He) as [He1 He2]. cbn in *.
    f_equal.
    + apply (wrap_inj row d1 e1 (Z.of_nat rows)); (done || lia).
    + apply (wrap_inj col d2 e2 (Z.of_nat cols)); (done || lia).
  - intros (d & Heq & Hd)%list_elem_of_fmap. injection Heq as H1 H2.
    destruct (offsets_range d Hd) as [Hd1 Hd2].
    destruct (wrap_fixed row d.1 (Z.of_nat rows)) as [Hz1 | Hz1]; try done;
      [| lia].
    destruct (wrap_fixed col d.2 (Z.of_nat cols)) as [Hz2 | Hz2]; try done;
      [| lia].
    destruct (offsets_nonzero d Hd); lia.
Qed.

Lemma countNeighbors_eight_distinct_witness :
  length (visited (createEmptyGrid 3 4) 0 3) = 8%nat
  ∧ NoDup (visited (createEmptyGrid 3 4) 0 3)
  ∧ ((Some 0, Some 3) ∉ visited (createEmptyGrid 3 4) 0 3).
Proof.
  apply (countNeighbors_eight_distinct (createEmptyGrid 3 4) 3 4 0 3).
  - split; [reflexivity |]. repeat constructor.
  - lia.
  - lia.
  - lia.
  - lia.
Defined.

(** ** Painting at and beyond the edge *)

Lemma js_index_None {A} (arr : list A) (z : Z) :
  js_index arr (Some z) = None ↔ ¬ (0 <= z < Z.of_nat (length arr)).
Proof.
  unfold js_index. destruct (Z.ltb_spec z 0) as [Hz | Hz].
  - split; [lia | done].
  - rewrite lookup_ge_None. lia.
Qed.

Lemma setCellAlive_cases (G : list (list bool)) (row col : Z) :
  result (setCellAlive G row col) =
  match js_index G (Some row) with
  | None => TypeError
  | Some r =>
      match js_index r (Some col) with
      | Some true => Ok Same
      | Some false =>
          Ok (Copy (<[Z.to_nat row := <[Z.to_nat col := true]> r]> G))
      | None => Ok (CopyExtended G row col)
      end
  end.
Proof.
  destruct (js_index G (Some row)) as [r|] eqn:Hr.
  - destruct (js_index r (Some col)) as [c|] eqn:Hc.
    + rewrite (setCellAlive_in_grid G row col r c Hr Hc). by destruct c.
    + unfold setCellAlive.
      rewrite (bind_Ok _ _ _ _ (read_defined _ _ _ Hr)). cbn [result snd].
      unfold read at 1. rewrite (bind_Ok _ _ _ _ eq_refl). cbn [result snd].
      rewrite Hc. cbn [truthy]. rewrite list_fmap_id. unfold store.
      rewrite (bind_Ok _ _ _ _ (read_defined _ _ _ Hr)). cbn [result snd].
      apply js_index_None in Hc.
      destruct (Z.leb_spec 0 col); [| done].
      destruct (Z.ltb_spec col (Z.of_nat (length r))); [lia | done].
  - unfold setCellAlive, read. rewrite (bind_Ok _ _ _ _ eq_refl).
    cbn [result snd reads fst]. by rewrite Hr.
Qed.


Lemma paint_insert (G : list (list bool)) (i j : nat) r c :
  G !! i = Some r → r !! j = Some c →
  paint G (Z.of_nat i) (Z.of_nat j) = Some (<[i := <[j := true]> r]> G).
Proof.
  intros Hr Hc. unfold paint. rewrite setCellAlive_cases.
  rewrite !js_index_lookup, !Nat2Z.id, Hr by lia.
  rewrite js_index_lookup, !Nat2Z.id, Hc by lia.
  destruct c; cbn; [| done].
  by rewrite (list_insert_id r j true Hc), (list_insert_id G i r Hr).
Qed.

Lemma paint_paint (G : list (list bool)) (i1 j1 i2 j2 : nat) r1 c1 r2 c2 :
  G !! i1 = Some r1 → r1 !! j1 = Some c1 →
  G !! i2 = Some r2 → r2 !! j2 = Some c2 →
  paint G (Z.of_nat i1) (Z.of_nat j1)
    ≫= (λ g, paint g (Z.of_nat i2) (Z.of_nat j2))
  = Some (if decide (i1 = i2)
          then <[i1 := <[j2 := true]> (<[j1 := true]> r1)]> G
          else <[i2 := <[j2 := true]> r2]> (<[i1 := <[j1 := true]> r1]> G)).
Proof.
  intros Hr1 Hc1 Hr2 Hc2. rewrite (paint_insert G i1 j1 r1 c1 Hr1 Hc1). cbn.
  pose proof (lookup_lt_Some _ _ _ Hr1) as Hi1.
  pose proof (lookup_lt_Some _ _ _ Hc2) as Hj2.
  case_decide as Hi.
  - subst i2. assert (r2 = r1) as -> by congruence.
    destruct (lookup_lt_is_Some_2 (<[j1 := true]> r1) j2) as [c Hc].
    { by rewrite length_insert. }
    rewrite (paint_insert _ i1 j2 (<[j1 := true]> r1) c);
      [| by rewrite list_lookup_insert_eq | done].
    by rewrite list_insert_insert_eq.
  - rewrite (paint_insert _ i2 j2 r2 c2); [done | | done].
    by rewrite list_lookup_insert_ne.
Qed.

(** X9.  Painting commutes: painting two cells of the grid in one order
    or the other leaves the same grid. *)
Theorem paint_commutes (G : list (list bool)) (row1 col1 row2 col2 : Z)
    (b1 b2 : bool) :
  cell G row1 col1 = Some b1 → cell G row2 col2 = Some b2 →
  paint G row1 col1 ≫= (λ g, paint g row2 col2)
  = paint G row2 col2 ≫= (λ g, paint g row1 col1)
  ∧ is_Some (paint G row1 col1 ≫= (λ g, paint g row2 col2)).
Proof.
  intros (Hi1 & Hj1 & r1 & Hr1 & Hc1)%cell_lookup
         (Hi2 & Hj2 & r2 & Hr2 & Hc2)%cell_lookup.
  rewrite <- (Z2Nat.id row1), <- (Z2Nat.id col1) by done.
  rewrite <- (Z2Nat.id row2), <- (Z2Nat.id col2) by done.
  set (i1 := Z.to_nat row1) in *. set (j1 := Z.to_nat col1) in *.
  set (i2 := Z.to_nat row2) in *. set (j2 := Z.to_nat col2) in *.
  clearbody i1 j1 i2 j2.
  rewrite (paint_paint G i1 j1 i2 j2 r1 b1 r2 b2) by done.
  rewrite (paint_paint G i2 j2 i1 j1 r2 b2 r1 b1) by done.
  split; [| by eexists]. f_equal.
  repeat case_decide; try congruence.
  - subst i2. assert (r2 = r1) as -> by congruence. f_equal.
    destruct (decide (j1 = j2)) as [-> | Hj]; [done |].
    by apply list_insert_insert_ne.
  - by apply list_insert_insert_ne.
Qed.

Lemma paint_commutes_witness :
  paint [[false; true]; [false; false]] 1 0 ≫= (λ g, paint g 1 1)
  = paint [[false; true]; [false; false]] 1 1 ≫= (λ g, paint g 1 0)
  ∧ is_Some (paint [[false; true]; [false; false]] 1 0
               ≫= (λ g, paint g 1 1)).
Proof.
  apply (paint_commutes [[false; true]; [false; false]] 1 0 1 1 false false);
    reflexivity.
Defined.

(** ** The component as a state machine *)

Lemma ceil_div_cell (a : Z) :
  Qceiling (inject_Z a / inject_Z CELL_SIZE) = - ((- a) `div` 20).
Proof.
  unfold Qceiling, Qfloor, CELL_SIZE. cbn. by rewrite Z.mul_1_r.
Qed.

Lemma cellCount_covers (size : nat) :
  (size <= 20 * cellCount size < size + 20)%nat.
Proof.
  unfold cellCount. rewrite ceil_div_cell.
  pose proof (Z.div_mod (- Z.of_nat size) 20) as Hdm.
  pose proof (Z.mod_pos_bound (- Z.of_nat size) 20) as Hmod.
  lia.
Qed.

(** X10.  After a resize the grid is the entirely dead grid of the new
    dimensions, the simulation is stopped, and the cells, 20 pixels each,
    cover the viewport with less than one cell to spare in each
    direction. *)
Theorem handleResize_covers_viewport (innerWidth innerHeight : nat) (st : App) :
  consistent (handleResize innerWidth innerHeight st)
  ∧ isGridEmpty (grid (handleResize innerWidth innerHeight st)) = true
  ∧ running (handleResize innerWidth innerHeight st) = false
  ∧ (innerWidth
     <= 20 * cols (dimensions (handleResize innerWidth innerHeight st))
     < innerWidth + 20)%nat
  ∧ (innerHeight
     <= 20 * rows (dimensions (handleResize innerWidth innerHeight st))
     < innerHeight + 20)%nat.
Proof.
  unfold consistent, handleResize. cbn [grid dimensions rows cols running].
  split; [apply createEmptyGrid_rectangular |].
  split; [apply isGridEmpty_true, createEmptyGrid_dead |].
  split; [done |]. split; apply cellCount_covers.
Qed.

Lemma paint_cell (G : list (list bool)) (row col : Z) (c : bool) :
  cell G row col = Some c →
  ∃ G', paint G row col = Some G'
        ∧ ∀ i j, cell G' i j
                 = if (i =? row) && (j =? col) then Some true else cell G i j.
Proof.
  intros Hcell. destruct (cell_split _ _ _ _ Hcell) as (r & Hr & Hc).
  unfold paint. rewrite (setCellAlive_in_grid G row col r c Hr Hc).
  destruct c; cbn.
  - exists G. split; [done |]. intros i j.
    destruct (Z.eqb_spec i row) as [-> |]; [| done].
    destruct (Z.eqb_spec j col) as [-> |]; done.
  - eexists. split; [done |]. intros i j.
    by apply (cell_insert G row col r false).
Qed.

Lemma paint_rectangular (G : list (list bool)) (rows cols : nat) (row col : Z) :
  rectangular G rows cols →
  0 <= row < Z.of_nat rows → 0 <= col < Z.of_nat cols →
  ∃ G', paint G row col = Some G' ∧ rectangular G' rows cols.
Proof.
  intros Hrect Hrow Hcol.
  destruct (rect_cell G rows cols Hrect row col Hrow Hcol)
    as (r & b & Hr & _ & Hb & _).
  unfold paint. rewrite (setCellAlive_in_grid G row col r b Hr Hb).
  destruct b; cbn; [by exists G |].
  eexists. split; [done |]. apply rectangular_insert; [done |].
  by rewrite js_index_lookup in Hr by lia.
Qed.

Lemma step_consistent (st : App) :
  consistent st → ∃ st', step st = Some st' ∧ consistent st'.
Proof.
  intros Hst. unfold step.
  destruct (nextGeneration_rectangular _ _ _ Hst) as (G' & -> & HG').
  by eexists.
Qed.

Lemma paintCell_consistent (st : App) (i j : Z) :
  consistent st →
  0 <= i < Z.of_nat (rows (dimensions st)) →
  0 <= j < Z.of_nat (cols (dimensions st)) →
  ∃ st', paintCell st i j = Some st' ∧ consistent st'
         ∧ dimensions st' = dimensions st.
Proof.
  intros Hst Hi Hj. unfold paintCell.
  destruct (paint_rectangular _ _ _ i j Hst Hi Hj) as (G' & -> & HG').
  by eexists.
Qed.

Lemma handle_consistent (e : event) (st : App) :
  consistent st → on_grid st e →
  ∃ st', handle e st = Some st' ∧ consistent st'.
Proof.
  intros Hst He. destruct e as [rnd | | | | w h | i j | i j | |]; cbn [handle].
  - destruct (running st); [by eexists |].
    eexists. split; [done |]. unfold consistent, start. cbn.
    destruct (isGridEmpty (grid st)); [apply createRandomGrid_rectangular | done].
  - destruct (running st); [by eexists | by apply step_consistent].
  - eexists. split; [done |]. apply createEmptyGrid_rectangular.
  - destruct (running st); [by apply step_consistent | by eexists].
  - eexists. split; [done |]. apply createEmptyGrid_rectangular.
  - destruct He as [Hi Hj].
    destruct (paintCell_consistent st i j Hst Hi Hj) as (st' & -> & Hst' & _).
    by eexists.
  - destruct He as [Hi Hj]. destruct (isPainting st); [| by eexists].
    destruct (paintCell_consistent st i j Hst Hi Hj) as (st' & -> & Hst' & _).
    by eexists.
  - by eexists.
  - by eexists.
Qed.

(** X11.  The grid in state always has the dimensions in state.  This
    holds after mount and is kept by every event (buttons, ticks, resizes,
    pointer events on cells of the grid shown), so no event of a session
    makes an updater throw. *)
Theorem session_keeps_grid_consistent (es : list event) (st : App) :
  consistent st → session es st →
  (∃ st', run es st = Some st' ∧ consistent st')
  ∧ ∀ innerWidth innerHeight, consistent (mount innerWidth innerHeight).
Proof.
  intros Hst Hes. split; [| intros; apply createEmptyGrid_rectangular].
  revert st Hst Hes. induction es as [|e es IH]; intros st Hst Hes.
  - by exists st.
  - destruct Hes as [He Hes]. cbn [run].
    destruct (handle_consistent e st Hst He) as (st1 & Hh & Hst1).
    rewrite Hh. cbn. apply IH; [done | by apply Hes].
Qed.

Lemma session_keeps_grid_consistent_witness :
  (∃ st',
     run [CellMouseDown 0 1; StartPauseClick (λ _, 0%Q); Tick;
          Resize 30 50; StepClick] (mount 40 40) = Some st'
     ∧ consistent st')
  ∧ ∀ innerWidth innerHeight, consistent (mount innerWidth innerHeight).
Proof.
  apply (session_keeps_grid_consistent
           [CellMouseDown 0 1; StartPauseClick (λ _, 0%Q); Tick;
            Resize 30 50; StepClick] (mount 40 40)).
  - split; [reflexivity |]. repeat constructor.
  - cbn [session on_grid]. split; [vm_compute; intuition discriminate |].
    intros st1 _. split; [exact I |]. intros st2 _. split; [exact I |].
    intros st3 _. split; [exact I |]. intros st4 _. split; [exact I |].
    intros st5 _. exact I.
Defined.

Lemma paint_keeps_alive (G G' : list (list bool)) (row col i j : Z) :
  paint G row col = Some G' →
  cell G i j = Some true → cell G' i j = Some true.
Proof.
  unfold paint. rewrite setCellAlive_cases.
  destruct (js_index G (Some row)) as [r|] eqn:Hr; [| done].
  destruct (js_index r (Some col)) as [[|]|] eqn:Hc; cbn [painted_grid];
    try done.
  - by intros [= <-].
  - intros [= <-] Halive.
    rewrite (cell_insert G row col r false i j Hr Hc).
    by destruct ((i =? row) && (j =? col)).
Qed.

Lemma pointer_event_keeps_alive (e : event) (st st' : App) :
  pointer_event e = true → handle e st = Some st' →
  running st' = running st ∧ dimensions st' = dimensions st
  ∧ ∀ i j, cell (grid st) i j = Some true → cell (grid st') i j = Some true.
Proof.
  destruct e as [rnd | | | | w h | row col | row col | |]; try done;
    intros _; cbn [handle]; unfold paintCell.
  - destruct (paint (grid st) row col) as [G'|] eqn:Hp; [| done].
    intros [= <-]. cbn. repeat split; try done.
    intros i j. by apply (paint_keeps_alive _ _ row col).
  - destruct (isPainting st); [| by intros [= <-]].
    destruct (paint (grid st) row col) as [G'|] eqn:Hp; [| done].
    intros [= <-]. cbn. repeat split; try done.
    intros i j. by apply (paint_keeps_alive _ _ row col).
  - by intros [= <-].
  - by intros [= <-].
Qed.

(** X12.  Pointer events never kill a cell and touch nothing but the grid
    and the painting flag: over any sequence of pointer events every cell
    alive at the start is alive at the end, and the running flag and the
    dimensions are as they were. *)
Theorem pointer_events_only_add_cells (es : list event) (st st' : App) :
  Forall (λ e, pointer_event e = true) es →
  run es st = Some st' →
  running st' = running st ∧ dimensions st' = dimensions st
  ∧ ∀ i j, cell (grid st) i j = Some true → cell (grid st') i j = Some true.
Proof.
  intros Hes. revert st. induction Hes as [|e es He _ IH]; intros st.
  - by intros [= <-].
  - cbn [run]. destruct (handle e st) as [st1|] eqn:Hh; [| done]. cbn.
    intros Hrun.
    destruct (pointer_event_keeps_alive e st st1 He Hh) as (Hr & Hd & Hc).
    destruct (IH st1 Hrun) as (Hr' & Hd' & Hc').
    rewrite Hr', Hd', Hr, Hd. repeat split; try done.
    intros i j Halive. by apply Hc', Hc.
Qed.

Lemma pointer_events_only_add_cells_witness :
  running
    {| dimensions := {| cols := 2; rows := 2 |};
       grid := [[false; true]; [true; true]];
       running := true; isPainting := true |} =
  running
    {| dimensions := {| cols := 2; rows := 2 |};
       grid := [[false; true]; [false; false]];
       running := true; isPainting := false |}
  ∧ dimensions
      {| dimensions := {| cols := 2; rows := 2 |};
         grid := [[false; true]; [true; true]];
         running := true; isPainting := true |} =
    dimensions
      {| dimensions := {| cols := 2; rows := 2 |};
         grid := [[false; true]; [false; false]];
         running := true; isPainting := false |}
  ∧ ∀ i j,
      cell (grid
        {| dimensions := {| cols := 2; rows := 2 |};
           grid := [[false; true]; [false; false]];
           running := true; isPainting := false |}) i j = Some true →
      cell (grid
        {| dimensions := {| cols := 2; rows := 2 |};
           grid := [[false; true]; [true; true]];
           running := true; isPainting := true |}) i j = Some true.
Proof.
  apply (pointer_events_only_add_cells
           [CellMouseDown 1 0; CellMouseEnter 1 1]).
  - repeat constructor.
  - reflexivity.
Defined.

Lemma other_cell (i j row col : Z) :
  (i, j) ≠ (row, col) → (i =? row) && (j =? col) = false.
Proof.
  intros Hne. destruct (Z.eqb_spec i row) as [-> |]; [| done].
  destruct (Z.eqb_spec j col) as [-> |]; done.
Qed.

Lemma drag_run (st : App) (a1 a2 b1 b2 c1 c2 : Z) (G1 G2 : list (list bool)) :
  paint (grid st) a1 a2 = Some G1 → paint G1 b1 b2 = Some G2 →
  run [CellMouseDown a1 a2; CellMouseEnter b1 b2; GridMouseUp;
       CellMouseEnter c1 c2] st
  = Some {| dimensions := dimensions st; grid := G2;
            running := running st; isPainting := false |}.
Proof.
  intros H1 H2. cbn [run handle]. unfold paintCell. rewrite H1. cbn.
  by rewrite H2.
Qed.

(** X13.  The drag gesture: mouse down on a cell of the grid, the pointer
    entering a second cell, mouse up, the pointer entering a third place.
    The first two cells end up alive, the painting flag is off, and no
    other cell has changed; after mouse up, entering a cell (or a place
    off the grid) paints nothing. *)
Theorem drag_paints_until_mouse_up (st : App) (a1 a2 b1 b2 c1 c2 : Z)
    (ca cb : bool) :
  cell (grid st) a1 a2 = Some ca → cell (grid st) b1 b2 = Some cb →
  ∃ st',
    run [CellMouseDown a1 a2; CellMouseEnter b1 b2; GridMouseUp;
         CellMouseEnter c1 c2] st = Some st'
    ∧ isPainting st' = false
    ∧ cell (grid st') a1 a2 = Some true
    ∧ cell (grid st') b1 b2 = Some true
    ∧ ∀ i j, (i, j) ≠ (a1, a2) → (i, j) ≠ (b1, b2) →
             cell (grid st') i j = cell (grid st) i j.
Proof.
  intros Ha Hb.
  destruct (paint_cell _ _ _ _ Ha) as (G1 & HG1 & Hcell1).
  assert (∃ cb', cell G1 b1 b2 = Some cb') as [cb' Hb'].
  { rewrite Hcell1. destruct ((b1 =? a1) && (b2 =? a2)); by eexists. }
  destruct (paint_cell _ _ _ _ Hb') as (G2 & HG2 & Hcell2).
  eexists. split; [by apply (drag_run st a1 a2 b1 b2 c1 c2 G1 G2) |].
  cbn [grid isPainting]. split; [done |].
  rewrite !Hcell2, !Hcell1, !Z.eqb_refl. cbn [andb].
  split; [by destruct ((a1 =? b1) && (a2 =? b2)) |]. split; [done |].
  intros i j Hna Hnb. rewrite Hcell2, Hcell1.
  rewrite (other_cell i j b1 b2 Hnb). by rewrite (other_cell i j a1 a2 Hna).
Qed.

Lemma drag_paints_until_mouse_up_witness :
  ∃ st',
    run [CellMouseDown 0 0; CellMouseEnter 0 1; GridMouseUp;
         CellMouseEnter 1 1] (mount 40 40) = Some st'
    ∧ isPainting st' = false
    ∧ cell (grid st') 0 0 = Some true
    ∧ cell (grid st') 0 1 = Some true
    ∧ ∀ i j, (i, j) ≠ (0, 0) → (i, j) ≠ (0, 1) →
             cell (grid st') i j = cell (grid (mount 40 40)) i j.
Proof.
  apply (drag_paints_until_mouse_up (mount 40 40) 0 0 0 1 1 1 false false);
    reflexivity.
Defined.

(** X14.  A painted pattern survives "start": after painting a cell of the
    grid, the start button sets the simulation running on the painted grid
    and seeds nothing, whatever [Math.random()] would return. *)
Theorem paint_then_start_keeps_pattern (rnd : nat → Q) (st : App)
    (i j : Z) (c : bool) :
  running st = false → cell (grid st) i j = Some c →
  ∃ st',
    run [CellMouseDown i j; StartPauseClick rnd] st = Some st'
    ∧ running st' = true
    ∧ paint (grid st) i j = Some (grid st')
    ∧ cell (grid st') i j = Some true.
Proof.
  intros Hrun Hc.
  destruct (paint_cell _ _ _ _ Hc) as (G1 & HG1 & Hcell1).
  assert (cell G1 i j = Some true) as Halive.
  { by rewrite Hcell1, !Z.eqb_refl. }
  assert (isGridEmpty G1 = false) as Hne.
  { destruct (isGridEmpty G1) eqn:He; [| done].
    by destruct (proj1 (isGridEmpty_iff_dead G1) He i j). }
  exists {| dimensions := dimensions st; grid := G1;
            running := true; isPainting := true |}.
  cbn [grid running]. split; [| done].
  cbn [run handle]. unfold paintCell. rewrite HG1.
  cbn [mbind option_bind setIsPainting setGrid running]. rewrite Hrun.
  unfold start, setIsPainting, setGrid.
  cbn [grid dimensions isPainting running]. by rewrite Hne.
Qed.

Lemma paint_then_start_keeps_pattern_witness :
  ∃ st',
    run [CellMouseDown 1 0; StartPauseClick (λ _, 0%Q)] (mount 40 40)
    = Some st'
    ∧ running st' = true
    ∧ paint (grid (mount 40 40)) 1 0 = Some (grid st')
    ∧ cell (grid st') 1 0 = Some true.
Proof.
  apply (paint_then_start_keeps_pattern (λ _, 0%Q) (mount 40 40) 1 0 false);
    reflexivity.
Defined.

(** X15.  "Clear" followed by "start" always seeds: whatever the state
    before, the grid afterwards is the random grid of the current
    dimensions and the simulation is running. *)
Theorem clear_then_start_seeds (rnd : nat → Q) (st : App) :
  ∃ st',
    run [ClearClick; StartPauseClick rnd] st = Some st'
    ∧ running st' = true
    ∧ dimensions st' = dimensions st
    ∧ grid st'
      = createRandomGrid rnd (rows (dimensions st)) (cols (dimensions st)).
Proof.
  eexists. cbn [run handle]. cbn. split; [reflexivity |].
  unfold start, clear. cbn [running dimensions grid].
  by rewrite (proj2 (isGridEmpty_true _) (createEmptyGrid_dead _ _)).
Qed.

(** ** The generation step and shifts of the torus *)

Lemma rectangular_rotate (G : list (list bool)) (rows cols k : nat) :
  rectangular G rows cols → rectangular (rotate k G) rows cols.
Proof.
  intros [Hlen Hall]. split; [by rewrite length_rotate |].
  apply Forall_forall. intros r Hr%elem_of_rotate.
  by apply (proj1 (Forall_forall _ _) Hall).
Qed.

Lemma rectangular_rotate_rows (G : list (list bool)) (rows cols k : nat) :
  rectangular G rows cols → rectangular (rotate k <$> G) rows cols.
Proof.
  intros [Hlen Hall]. split; [by rewrite length_fmap |].
  apply Forall_fmap. eapply Forall_impl; [exact Hall |].
  intros r Hr. cbn. by rewrite length_rotate.
Qed.

Lemma lookup_rotate_Z {A} (l : list A) (k : nat) (x : Z) :
  0 <= x < Z.of_nat (length l) →
  rotate k l !! Z.to_nat x
  = l !! Z.to_nat ((x + Z.of_nat k) `mod` Z.of_nat (length l)).
Proof.
  intros Hx. rewrite lookup_rotate_r by lia. unfold rotate_nat_add.
  do 3 f_equal. lia.
Qed.

Lemma cell_shift_down (G : list (list bool)) (rows cols k : nat) (x y : Z) :
  rectangular G rows cols → 0 <= x < Z.of_nat rows →
  cell (rotate k G) x y = cell G ((x + Z.of_nat k) `mod` Z.of_nat rows) y.
Proof.
  intros [Hlen _] Hx. unfold cell.
  rewrite !js_index_lookup by (try apply Z.mod_pos_bound; lia).
  rewrite lookup_rotate_Z by lia. by rewrite Hlen.
Qed.

Lemma cell_shift_right (G : list (list bool)) (rows cols k : nat) (x y : Z) :
  rectangular G rows cols → 0 <= y < Z.of_nat cols →
  cell (rotate k <$> G) x y = cell G x ((y + Z.of_nat k) `mod` Z.of_nat cols).
Proof.
  intros [_ Hall] Hy. unfold cell, js_index.
  destruct (Z.ltb_spec x 0); [done |].
  rewrite list_lookup_fmap.
  destruct (G !! Z.to_nat x) as [r|] eqn:Hr; [| done]. cbn.
  pose proof (proj1 (Forall_lookup _ _) Hall _ _ Hr) as Hc. cbn in Hc.
  rewrite (proj2 (Z.ltb_ge y 0)) by lia.
  rewrite (proj2 (Z.ltb_ge (_ `mod` _) 0)) by (apply Z.mod_pos_bound; lia).
  rewrite lookup_rotate_Z by lia. by rewrite Hc.
Qed.

Lemma toroidalNeighbors_shift_down (G : list (list bool)) (rows cols k : nat)
    (row col : Z) :
  rectangular G rows cols → (0 < rows)%nat →
  toroidalNeighbors rows cols (rotate k G) row col
  = toroidalNeighbors rows cols G (row + Z.of_nat k) col.
Proof.
  intros Hrect Hrows. unfold toroidalNeighbors. do 2 f_equal.
  apply List.filter_ext. intros d.
  rewrite (cell_shift_down G rows cols k) by (done || apply Z.mod_pos_bound; lia).
  rewrite Zplus_mod_idemp_l. do 3 f_equal. lia.
Qed.

Lemma toroidalNeighbors_shift_right (G : list (list bool)) (rows cols k : nat)
    (row col : Z) :
  rectangular G rows cols → (0 < cols)%nat →
  toroidalNeighbors rows cols (rotate k <$> G) row col
  = toroidalNeighbors rows cols G row (col + Z.of_nat k).
Proof.
  intros Hrect Hcols. unfold toroidalNeighbors. do 2 f_equal.
  apply List.filter_ext. intros d.
  rewrite (cell_shift_right G rows cols k) by (done || apply Z.mod_pos_bound; lia).
  rewrite Zplus_mod_idemp_l. do 3 f_equal. lia.
Qed.

(** Two grids of the same shape whose step results agree cell by cell. *)
Lemma nextGeneration_cells (G : list (list bool)) (rows cols : nat) :
  rectangular G rows cols →
  ∃ G', result (nextGeneration G) = Ok G' ∧ rectangular G' rows cols
        ∧ ∀ i j : nat, (i < rows)%nat → (j < cols)%nat →
            ∃ c, cell G (Z.of_nat i) (Z.of_nat j) = Some c
                 ∧ cell G' (Z.of_nat i) (Z.of_nat j)
                   = Some (rule c (toroidalNeighbors rows cols G
                                     (Z.of_nat i) (Z.of_nat j))).
Proof.
  intros Hrect.
  destruct (nextGeneration_rect G rows cols Hrect)
    as (G' & HG' & _ & Hlen & Hrows).
  destruct (nextGeneration_rectangular G rows cols Hrect)
    as (G'' & HG'' & Hrect').
  assert (G'' = G') as -> by congruence.
  exists G'. split; [done |]. split; [done |]. intros i j Hi Hj.
  destruct (rect_cell G rows cols Hrect (Z.of_nat i) (Z.of_nat j))
    as (r & c & Hr & _ & Hc & Hcell); [lia | lia |].
  exists c. split; [done |].
  rewrite js_index_lookup, Nat2Z.id in Hr by lia.
  rewrite js_index_lookup, Nat2Z.id in Hc by lia.
  destruct (Hrows i r Hr) as (r' & Hr' & _ & Hcells).
  apply cell_lookup. rewrite !Nat2Z.id.
  repeat split; [lia | lia |]. exists r'. split; [done |]. by apply Hcells.
Qed.

Lemma rectangular_ext (G1 G2 : list (list bool)) (rows cols : nat) :
  rectangular G1 rows cols → rectangular G2 rows cols →
  (∀ i j : nat, (i < rows)%nat → (j < cols)%nat →
     cell G1 (Z.of_nat i) (Z.of_nat j) = cell G2 (Z.of_nat i) (Z.of_nat j)) →
  G1 = G2.
Proof.
  intros [Hl1 Ha1] [Hl2 Ha2] Hcells.
  apply list_eq_same_length with rows; try done.
  intros i r1 r2 Hi Hr1 Hr2.
  pose proof (proj1 (Forall_lookup _ _) Ha1 _ _ Hr1) as Hc1.
  pose proof (proj1 (Forall_lookup _ _) Ha2 _ _ Hr2) as Hc2. cbn in Hc1, Hc2.
  apply list_eq_same_length with cols; try done.
  intros j c1 c2 Hj Hcell1 Hcell2.
  specialize (Hcells i j Hi Hj).
  rewrite (proj2 (cell_lookup G1 _ _ c1)) in Hcells
    by (rewrite !Nat2Z.id; repeat split; [lia | lia | eauto]).
  rewrite (proj2 (cell_lookup G2 _ _ c2)) in Hcells
    by (rewrite !Nat2Z.id; repeat split; [lia | lia | eauto]).
  congruence.
Qed.

Lemma cell_shift (G : list (list bool)) (rows cols kr kc : nat) (x y : Z) :
  rectangular G rows cols →
  0 <= x < Z.of_nat rows → 0 <= y < Z.of_nat cols →
  cell (rotate kr (rotate kc <$> G)) x y
  = cell G ((x + Z.of_nat kr) `mod` Z.of_nat rows)
           ((y + Z.of_nat kc) `mod` Z.of_nat cols).
Proof.
  intros Hrect Hx Hy.
  rewrite (cell_shift_down _ rows cols kr)
    by (done || by apply rectangular_rotate_rows).
  by rewrite (cell_shift_right G rows cols kc).
Qed.

(** X16.  The generation step commutes with shifting the grid around the
    torus: rotating the rows by [kr] and every row by [kc] and then
    stepping gives the step of the grid, rotated the same way. *)
Theorem nextGeneration_commutes_with_shift (G G' : list (list bool))
    (rows cols kr kc : nat) :
  rectangular G rows cols →
  result (nextGeneration G) = Ok G' →
  result (nextGeneration (rotate kr (rotate kc <$> G)))
  = Ok (rotate kr (rotate kc <$> G')).
Proof.
  intros Hrect HG'.
  destruct (nextGeneration_cells G rows cols Hrect) as (G'' & HG'' & Hrect' & Hcells).
  assert (G'' = G') as -> by congruence.
  assert (rectangular (rotate kr (rotate kc <$> G)) rows cols) as HrectS.
  { by apply rectangular_rotate, rectangular_rotate_rows. }
  destruct (nextGeneration_cells _ rows cols HrectS) as (S' & -> & HrectS' & HcellsS).
  f_equal. apply (rectangular_ext _ _ rows cols); [done | |].
  { by apply rectangular_rotate, rectangular_rotate_rows. }
  intros i j Hi Hj.
  destruct (HcellsS i j Hi Hj) as (c & Hc & ->).
  rewrite (cell_shift G' rows cols kr kc) by (done || lia).
  rewrite (cell_shift G rows cols kr kc) in Hc by (done || lia).
  set (i' := (Z.of_nat i + Z.of_nat kr) `mod` Z.of_nat rows) in *.
  set (j' := (Z.of_nat j + Z.of_nat kc) `mod` Z.of_nat cols) in *.
  assert (0 <= i' < Z.of_nat rows) as Hi' by (apply Z.mod_pos_bound; lia).
  assert (0 <= j' < Z.of_nat cols) as Hj' by (apply Z.mod_pos_bound; lia).
  destruct (Hcells (Z.to_nat i') (Z.to_nat j')) as (c' & Hc' & Hnext);
    [lia | lia |].
  rewrite !Z2Nat.id in Hc', Hnext by lia.
  rewrite Hnext. assert (c' = c) as -> by congruence. do 2 f_equal.
  rewrite (toroidalNeighbors_shift_down _ rows cols kr)
    by (lia || by apply rectangular_rotate_rows).
  rewrite (toroidalNeighbors_shift_right G rows cols kc) by (done || lia).
  symmetry. apply toroidalNeighbors_periodic.
Qed.

Lemma nextGeneration_commutes_with_shift_witness :
  result (nextGeneration
            (rotate 1 (rotate 2 <$> [[false; true; false; false];
                                     [false; true; false; false];
                                     [false; true; false; false]])))
  = Ok (rotate 1 (rotate 2 <$> [[true; true; true; false];
                                [true; true; true; false];
                                [true; true; true; false]])).
Proof.
  apply (nextGeneration_commutes_with_shift
           [[false; true; false; false]; [false; true; false; false];
            [false; true; false; false]] _ 3 4 1 2).
  - split; [reflexivity |]. repeat constructor.
  - reflexivity.
Defined.

(** ** A lone cell *)

Lemma filter_at_most_one {A} (p : A → bool) (l : list A) :
  NoDup l →
  (∀ x y, x ∈ l → y ∈ l → p x = true → p y = true → x = y) →
  (length (List.filter p l) <= 1)%nat.
Proof.
  induction 1 as [|x l Hx Hnd IH]; intros Huniq; cbn; [lia |].
  destruct (p x) eqn:Hpx.
  - cbn. rewrite (proj2 (length_zero_iff_nil (List.filter p l))); [lia |].
    destruct (List.filter p l) as [|y l'] eqn:Hf; [done |].
    assert (In y (List.filter p l)) as Hy by (rewrite Hf; by left).
    apply filter_In in Hy as [Hy Hpy]. apply list_elem_of_In in Hy.
    destruct Hx. rewrite (Huniq x y); try done.
    + apply elem_of_cons. by left.
    + apply elem_of_cons. by right.
  - apply IH. intros y z Hy Hz. apply Huniq; apply elem_of_cons; by right.
Qed.

Lemma toroidalNeighbors_lone (G : list (list bool)) (rows cols : nat)
    (a b row col : Z) :
  (3 <= rows)%nat → (3 <= cols)%nat →
  (∀ i j, cell G i j = Some true → (i, j) = (a, b)) →
  toroidalNeighbors rows cols G row col <= 1.
Proof.
  intros Hrows Hcols Hlone. unfold toroidalNeighbors.
  match goal with |- Z.of_nat (length (List.filter ?p _)) <= 1 =>
    pose proof (filter_at_most_one p offsets offsets_NoDup) as Hle
  end.
  cbn beta in Hle. apply inj_le in Hle; [exact Hle |].
  intros [d1 d2] [e1 e2] Hd He Hpd Hpe. cbn [fst snd] in Hpd, Hpe.
  destruct (cell G ((row + d1) `mod` Z.of_nat rows)
                   ((col + d2) `mod` Z.of_nat cols))
    as [[|]|] eqn:Hcd; try done.
  destruct (cell G ((row + e1) `mod` Z.of_nat rows)
                   ((col + e2) `mod` Z.of_nat cols))
    as [[|]|] eqn:Hce; try done.
  apply Hlone in Hcd, Hce. injection Hcd as Hd1 Hd2. injection Hce as He1 He2.
  destruct (offsets_range _ Hd) as [? ?].
  destruct (offsets_range _ He) as [? ?]. cbn in *.
  f_equal.
  - apply (wrap_inj row d1 e1 (Z.of_nat rows)); (lia || congruence).
  - apply (wrap_inj col d2 e2 (Z.of_nat cols)); (lia || congruence).
Qed.

(** X17.  An isolated cell dies: on a rectangular grid with at least 3
    rows and 3 columns in which at most one cell is alive, the next
    generation is entirely dead. *)
Theorem lone_cell_dies (G : list (list bool)) (rows cols : nat) (a b : Z) :
  rectangular G rows cols → (3 <= rows)%nat → (3 <= cols)%nat →
  (∀ i j, cell G i j = Some true → (i, j) = (a, b)) →
  ∃ G', result (nextGeneration G) = Ok G' ∧ isGridEmpty G' = true.
Proof.
  intros Hrect Hrows Hcols Hlone.
  destruct (nextGeneration_cells G rows cols Hrect)
    as (G' & HG' & Hrect' & Hcells).
  exists G'. split; [done |]. apply isGridEmpty_iff_dead.
  intros i j Halive.
  destruct (cell_in_grid G' rows cols Hrect' i j true Halive) as [Hi Hj].
  destruct (Hcells (Z.to_nat i) (Z.to_nat j)) as (c & _ & Hnext); [lia | lia |].
  rewrite !Z2Nat.id in Hnext by lia. rewrite Hnext in Halive.
  injection Halive as Hrule. apply rule_spec in Hrule.
  pose proof (toroidalNeighbors_lone G rows cols a b i j Hrows Hcols Hlone).
  lia.
Qed.

Lemma lone_cell_dies_witness :
  ∃ G', result (nextGeneration [[false; false; false]; [false; true; false];
                                [false; false; false]]) = Ok G'
        ∧ isGridEmpty G' = true.
Proof.
  apply (lone_cell_dies [[false; false; false]; [false; true; false];
                         [false; false; false]] 3 3 1 1).
  - split; [reflexivity |]. repeat constructor.
  - lia.
  - lia.
  - intros i j Halive. apply cell_lookup in Halive as (Hi & Hj & r & Hr & Hc).
    destruct (Z.to_nat i) as [|[|[|?]]] eqn:Ei; cbn in Hr; try discriminate Hr;
      injection Hr as <-;
      destruct (Z.to_nat j) as [|[|[|?]]] eqn:Ej; cbn in Hc;
      try discriminate Hc.
    f_equal; lia.
Defined.
